(** * Toll-data transforms: distance matrix, bucketing and matrix scaling

    A shallow embedding of [Submission/python_task_2.py] and
    [Submission/python_task_1.py].  Location identifiers and distances are
    integers ([Z], exact arithmetic).  Python dictionaries whose iteration
    order is observed (the adjacency structure of [networkx.Graph]) are
    insertion-ordered association lists; dictionaries that are only looked
    up ([dist], [seen], the all-pairs result, the cells of a frame) are
    [gmap]s.  The library routines that the source calls ([Graph.add_edge]
    and the Dijkstra search of networkx, [unique], [cut], [value_counts],
    [applymap], [round] and [.loc] of pandas) are embedded after the
    behaviour of those libraries. *)

From stdpp Require Import gmap strings list fin_maps sorting.
From Stdlib Require Import ZArith QArith Qround Lia Lqa.

Local Open Scope Z_scope.
Set Warnings "-clear-no-such-hyp".

(** ** Outcomes of a call: a value, a Python exception, or fuel exhausted *)

Inductive exn := ValueError | KeyError | NameError | AttributeError.

Inductive run (A : Type) : Type :=
  | Returns (a : A)
  | Raises (e : exn)
  | OutOfFuel.
Arguments Returns {A} a.
Arguments Raises {A} e.
Arguments OutOfFuel {A}.

#[global] Instance run_bind : MBind run := λ A B k m,
  match m with
  | Returns a => k a
  | Raises e => Raises e
  | OutOfFuel => OutOfFuel
  end.

(** ** Insertion-ordered dictionaries with integer keys *)

Module OrderedDict.

Section ops.
Context {V : Type}.

(** [d.get(k)] *)
Fixpoint get (k : Z) (d : list (Z * V)) : option V :=
  match d with
  | [] => None
  | (k', v) :: d' => if decide (k = k') then Some v else get k d'
  end.

(** [d[k] = v]: an existing key keeps its position, a new key goes last. *)
Fixpoint set (k : Z) (v : V) (d : list (Z * V)) : list (Z * V) :=
  match d with
  | [] => [(k, v)]
  | (k', v') :: d' =>
      if decide (k = k') then (k, v) :: d' else (k', v') :: set k v d'
  end.

(** In-place mutation of the value stored under [k] (the value is itself a
    mutable object); nothing happens when [k] is absent. *)
Fixpoint update (k : Z) (f : V → V) (d : list (Z * V)) : list (Z * V) :=
  match d with
  | [] => []
  | (k', v') :: d' =>
      if decide (k = k') then (k', f v') :: d' else (k', v') :: update k f d'
  end.

Definition keys (d : list (Z * V)) : list Z := d.*1.

End ops.
End OrderedDict.

Module Task2.

Module OD := OrderedDict.

(** ** The input table: rows [id_start, id_end, distance] *)

Record Row := mkRow { id_start : Z; id_end : Z; distance : Z }.

(** ** [networkx.Graph]: [_adj] maps a node to its neighbours' edge data *)

Definition Graph := list (Z * list (Z * Z)).

(** [if u not in self._node: self._adj[u] = {}] *)
Definition ensure_node (u : Z) (G : Graph) : Graph :=
  match OD.get u G with
  | Some _ => G
  | None => OD.set u [] G
  end.

(** [G.add_edge(u, v, distance=w)]: both endpoints are created when new,
    then [_adj[u][v]] and [_adj[v][u]] receive the edge data. *)
Definition add_edge (u v w : Z) (G : Graph) : Graph :=
  let G2 := ensure_node v (ensure_node u G) in
  OD.update v (OD.set u w) (OD.update u (OD.set v w) G2).

(** [for _, row in df.iterrows(): G.add_edge(...)] *)
Definition build_graph (df : list Row) : Graph :=
  fold_left (λ G row, add_edge (id_start row) (id_end row) (distance row) G)
            df [].

(** ** [heapq] on tuples [(distance, counter, node)] *)

Definition entry := (Z * nat * Z)%type.

Definition entry_leb (a b : entry) : bool :=
  let '(da, ca, _) := a in
  let '(db, cb, _) := b in
  (da <? db) || ((da =? db) && (ca <=? cb)%nat).

(** [heappop]: removes and returns the least tuple.  The heap is kept as the
    list of its elements; the counters make the least tuple unique. *)
Fixpoint heappop (h : list entry) : option (entry * list entry) :=
  match h with
  | [] => None
  | e :: h' =>
      match heappop h' with
      | None => Some (e, [])
      | Some (m, r) =>
          if entry_leb e m then Some (e, h') else Some (m, e :: r)
      end
  end.

(** ** [_dijkstra_multisource] with a single source, no cutoff, no target *)

Record dstate := mkD {
  dist : gmap Z Z;
  seen : gmap Z Z;
  fringe : list entry;
  counter : nat
}.

Definition push (d : Z) (u : Z) (st : dstate) : dstate :=
  {| dist := dist st;
     seen := <[u := d]> (seen st);
     fringe := (d, counter st, u) :: fringe st;
     counter := S (counter st) |}.

(** [for u, e in G_succ[v].items(): ...] with [dv = dist[v]] *)
Fixpoint relax (dv : Z) (nbrs : list (Z * Z)) (st : dstate) : run dstate :=
  match nbrs with
  | [] => Returns st
  | (u, cost) :: rest =>
      let vu_dist := dv + cost in
      match dist st !! u with
      | Some u_dist =>
          if vu_dist <? u_dist then Raises ValueError
          else relax dv rest st
      | None =>
          match seen st !! u with
          | None => relax dv rest (push vu_dist u st)
          | Some su =>
              if vu_dist <? su then relax dv rest (push vu_dist u st)
              else relax dv rest st
          end
      end
  end.

(** [while fringe: ...]; one unit of fuel per iteration. *)
Fixpoint dijkstra_loop (fuel : nat) (G : Graph) (st : dstate)
  : run (gmap Z Z) :=
  match heappop (fringe st) with
  | None => Returns (dist st)
  | Some ((d, _, v), rest) =>
      match fuel with
      | O => OutOfFuel
      | S fuel' =>
          match dist st !! v with
          | Some _ =>
              dijkstra_loop fuel' G
                {| dist := dist st; seen := seen st; fringe := rest;
                   counter := counter st |}
          | None =>
              match OD.get v G with
              | None => Raises KeyError
              | Some nbrs =>
                  st' ← relax d nbrs
                        {| dist := <[v := d]> (dist st); seen := seen st;
                           fringe := rest; counter := counter st |} ;
                  dijkstra_loop fuel' G st'
              end
          end
      end
  end.

(** Number of loop iterations that always suffices: every iteration pops one
    tuple, and tuples are pushed only while a node is being finalised. *)
Definition pending_work (G : Graph) (dst : gmap Z Z) : nat :=
  sum_list_with
    (λ kv : Z * list (Z * Z),
       match dst !! kv.1 with Some _ => O | None => S (length kv.2) end) G.

Definition init_state (source : Z) : dstate :=
  {| dist := ∅; seen := {[source := 0]}; fringe := [(0, O, source)];
     counter := 1%nat |}.

Definition single_source_dijkstra_path_length (G : Graph) (source : Z)
  : run (gmap Z Z) :=
  dijkstra_loop (S (pending_work G ∅)) G (init_state source).

(** [dict(nx.all_pairs_dijkstra_path_length(G, weight='distance'))] *)
Fixpoint all_pairs_from (G : Graph) (nodes : list Z)
    (acc : gmap Z (gmap Z Z)) : run (gmap Z (gmap Z Z)) :=
  match nodes with
  | [] => Returns acc
  | n :: rest =>
      d ← single_source_dijkstra_path_length G n ;
      all_pairs_from G rest (<[n := d]> acc)
  end.

Definition all_pairs_dijkstra_path_length (G : Graph)
  : run (gmap Z (gmap Z Z)) :=
  all_pairs_from G (OD.keys G) ∅.

(** ** The result frame *)

(** A cell is a number or the missing-value marker ([None]/NaN). *)
Definition cell := option Z.

Record Frame := mkFrame {
  index : list Z;
  columns : list Z;
  cells : gmap (Z * Z) cell
}.

(** [pd.DataFrame(index=rows, columns=cols)]: every cell is missing. *)
Definition new_frame (rows cols : list Z) : Frame :=
  {| index := rows; columns := cols;
     cells := list_to_map
                (r ← rows; c ← cols; [((r, c), None)]) |}.

(** [m.loc[r, c] = x] for labels already present *)
Definition loc_set (r c : Z) (x : cell) (m : Frame) : Frame :=
  {| index := index m; columns := columns m;
     cells := <[(r, c) := x]> (cells m) |}.

(** [m.loc[r, c]]; [None] stands for the [KeyError] of an absent label. *)
Definition loc (m : Frame) (r c : Z) : option cell := cells m !! (r, c).

(** [Series.unique()]: first occurrences, in order of appearance. *)
Fixpoint unique (l : list Z) : list Z :=
  match l with
  | [] => []
  | x :: l' => x :: filter (λ y, y ≠ x) (unique l')
  end.

Definition sorted (l : list Z) : list Z := merge_sort Z.le l.

(** The value written to cell [(start_toll, end_toll)]. *)
Definition cell_value (ap : gmap Z (gmap Z Z)) (start_toll end_toll : Z)
  : cell :=
  if decide (start_toll = end_toll) then Some 0
  else
    match ap !! start_toll ≫= (.!! end_toll) with
    | Some x => Some x
    | None =>
        match ap !! end_toll ≫= (.!! start_toll) with
        | Some x => Some x
        | None => None
        end
    end.

Definition populate (ap : gmap Z (gmap Z Z)) (toll_locations : list Z)
    (m : Frame) : Frame :=
  fold_left
    (λ m start_toll,
       fold_left
         (λ m end_toll,
            loc_set start_toll end_toll (cell_value ap start_toll end_toll) m)
         toll_locations m)
    toll_locations m.

Definition calculate_distance_matrix (df : list Row) : run Frame :=
  let G := build_graph df in
  all_pairs_shortest_paths ← all_pairs_dijkstra_path_length G ;
  let toll_locations := sorted (unique (id_start <$> df)) in
  let distance_matrix := new_frame toll_locations toll_locations in
  Returns (populate all_pairs_shortest_paths toll_locations distance_matrix).

(** ** [unroll_distance_matrix] and the names it can see *)

(** What a module-level name can be bound to. *)
Inductive pyval :=
  | VFrame (m : Frame)
  | VModule (name : string)
  | VClass (name : string)
  | VFunction (name : string).

(** The globals of [python_task_2] once its top-level statements have run:
    the four imports and the five function definitions.  There is no
    assignment to [distance_matrix] at module level (and no builtin of that
    name). *)
Definition module_globals : gmap string pyval :=
  list_to_map
    [("pd", VModule "pandas"); ("nx", VModule "networkx");
     ("datetime", VClass "datetime.datetime"); ("dt", VModule "datetime");
     ("calculate_distance_matrix", VFunction "calculate_distance_matrix");
     ("unroll_distance_matrix", VFunction "unroll_distance_matrix");
     ("find_ids_within_ten_percentage_threshold",
      VFunction "find_ids_within_ten_percentage_threshold");
     ("calculate_toll_rate", VFunction "calculate_toll_rate");
     ("calculate_time_based_toll_rates",
      VFunction "calculate_time_based_toll_rates")].

(** Reading a name that is not local to the function. *)
Definition load_global (globals : gmap string pyval) (name : string)
  : run pyval :=
  match globals !! name with
  | Some v => Returns v
  | None => Raises NameError
  end.

(** [.index], [.columns] and [.loc] exist on frames. *)
Definition as_frame (v : pyval) : run Frame :=
  match v with
  | VFrame m => Returns m
  | _ => Raises AttributeError
  end.

Record UnrolledRow := mkURow {
  u_id_start : Z; u_id_end : Z; u_distance : cell
}.

(** [for id_end in distance_matrix.columns: ...] for one [id_start] *)
Fixpoint unroll_row (dm : Frame) (id_start : Z) (cols : list Z)
    (unrolled_data : list UnrolledRow) : run (list UnrolledRow) :=
  match cols with
  | [] => Returns unrolled_data
  | id_end :: cols' =>
      if decide (id_start ≠ id_end) then
        match loc dm id_start id_end with
        | None => Raises KeyError
        | Some distance =>
            unroll_row dm id_start cols'
              (unrolled_data ++ [mkURow id_start id_end distance])
        end
      else unroll_row dm id_start cols' unrolled_data
  end.

Fixpoint unroll_rows (dm : Frame) (rows : list Z)
    (unrolled_data : list UnrolledRow) : run (list UnrolledRow) :=
  match rows with
  | [] => Returns unrolled_data
  | id_start :: rows' =>
      unrolled_data ← unroll_row dm id_start (columns dm) unrolled_data;
      unroll_rows dm rows' unrolled_data
  end.

(** The body never mentions its parameter [df]; [distance_matrix] is not
    assigned in the body, so it is read from the globals (the globals do not
    change during the call, so one read stands for all). *)
Definition unroll_distance_matrix (globals : gmap string pyval) (df : Frame)
  : run (list UnrolledRow) :=
  let unrolled_data := [] in
  distance_matrix ← load_global globals "distance_matrix" ≫= as_frame;
  unroll_rows distance_matrix (index distance_matrix) unrolled_data.

(** ** Vocabulary for stating the properties *)

(** The work that remains: tuples still in the heap, plus one pop and one
    push per neighbour for every node not yet finalised. *)
Definition remaining (G : Graph) (st : dstate) : nat :=
  (length (fringe st) + pending_work G (dist st))%nat.

(** The datum stored on the edge [u]--[v], as seen from [u]. *)
Definition weight (G : Graph) (u v : Z) : option Z :=
  OD.get u G ≫= OD.get v.

(** [v] is listed among the neighbours of [u] with edge datum [c]. *)
Definition edge (G : Graph) (u v c : Z) : Prop :=
  ∃ nbrs, OD.get u G = Some nbrs ∧ (v, c) ∈ nbrs.

(** A walk from [u] to [v] of total length [w]. *)
Inductive walk (G : Graph) : Z → Z → Z → Prop :=
  | walk_nil u : walk G u u 0
  | walk_cons u x v c w :
      edge G u x c → walk G x v w → walk G u v (c + w).

(** Same connected component. *)
Definition connected (G : Graph) (u v : Z) : Prop := ∃ w, walk G u v w.

(** [d] is the least length of a walk from [u] to [v]. *)
Definition shortest_dist (G : Graph) (u v d : Z) : Prop :=
  walk G u v d ∧ ∀ d', walk G u v d' → d ≤ d'.

(** Structural well-formedness of an adjacency structure: node keys and
    neighbour keys are unique, and the edge datum is shared by both
    directions. *)
Record graph_wf (G : Graph) : Prop := {
  wf_nodes : NoDup (OD.keys G);
  wf_nbrs : ∀ x nbrs, OD.get x G = Some nbrs → NoDup (OD.keys nbrs);
  wf_sym : ∀ u v, weight G u v = weight G v u
}.

(** Some edge of the graph carries a negative datum. *)
Definition has_negative_edge (G : Graph) : bool :=
  existsb (λ kv : Z * list (Z * Z),
             existsb (λ e : Z * Z, e.2 <? 0) kv.2) G.

(** The row joins the unordered pair [{u, v}]. *)
Definition joins (r : Row) (u v : Z) : Prop :=
  (id_start r = u ∧ id_end r = v) ∨ (id_start r = v ∧ id_end r = u).

#[global] Instance joins_dec r u v : Decision (joins r u v).
Proof. unfold joins. apply _. Defined.

(** The distance of the last row that joins [{u, v}], if any. *)
Definition last_weight (u v : Z) (df : list Row) : option Z :=
  fold_left (λ acc r, if decide (joins r u v) then Some (distance r) else acc)
            df None.

(** Valid input of the distance-matrix builder: at least one edge, no
    negative distance. *)
Definition valid_input (df : list Row) : Prop :=
  df ≠ [] ∧ Forall (λ r, 0 ≤ distance r) df.

(** Every location named by a row, as start or as end. *)
Definition endpoints (df : list Row) : list Z :=
  df ≫= λ r, [id_start r; id_end r].

(** ** Sample inputs *)

(** The two scenarios of the specification, with A, B, C as 1, 2, 3. *)
Definition chain_edges : list Row := [mkRow 1 2 10; mkRow 2 3 5].
Definition duplicate_edges : list Row := [mkRow 1 2 4; mkRow 1 2 9].

(** Two components {1, 2} and {3, 4}, a repeated pair and a self-loop. *)
Definition two_components : list Row :=
  [mkRow 1 2 4; mkRow 3 4 1; mkRow 2 1 9; mkRow 4 3 1; mkRow 3 3 7].

(** ** The loop invariant of the shortest-path search

    [exempt v u c] marks the edges out of the node being finalised whose
    relaxation is still pending. *)

Definition exempt_none : Z → Z → Z → Prop := λ _ _ _, False.

Definition exempt_at (v : Z) (pending : list (Z * Z)) : Z → Z → Z → Prop :=
  λ v' u c, v' = v ∧ (u, c) ∈ pending.

Record dijkstra_inv (G : Graph) (s : Z) (exempt : Z → Z → Z → Prop)
    (st : dstate) : Prop := {
  (* the source is finalised or waits in the heap with distance 0 *)
  inv_src : dist st !! s = None → ∃ c, (0, c, s) ∈ fringe st;
  (* finalised distances are shortest distances *)
  inv_dist : ∀ v d, dist st !! v = Some d → shortest_dist G s v d;
  (* every tuple in the heap is the length of a walk from the source *)
  inv_walk : ∀ d c v, (d, c, v) ∈ fringe st → walk G s v d;
  (* no tuple in the heap is below a finalised distance *)
  inv_mono : ∀ d c v u du,
    (d, c, v) ∈ fringe st → dist st !! u = Some du → du ≤ d;
  (* every edge leaving the finalised nodes is covered by a tuple *)
  inv_out : ∀ v dv u cost,
    dist st !! v = Some dv → edge G v u cost → dist st !! u = None →
    exempt v u cost ∨ ∃ d' c', (d', c', u) ∈ fringe st ∧ d' ≤ dv + cost;
  (* the best distance seen for a node still waits in the heap *)
  inv_seen : ∀ u su,
    seen st !! u = Some su → dist st !! u = None →
    ∃ c', (su, c', u) ∈ fringe st
}.

(** What a finished search has computed. *)
Definition dijkstra_post (G : Graph) (s : Z) (dst : gmap Z Z) : Prop :=
  (∀ v d, dst !! v = Some d → shortest_dist G s v d) ∧
  (∀ v w, walk G s v w → is_Some (dst !! v)).

(** Every node waiting in the heap is a node of the graph. *)
Definition fringe_nodes (G : Graph) (st : dstate) : Prop :=
  ∀ d c v, (d, c, v) ∈ fringe st → is_Some (OD.get v G).

(** State of a search from [x] after it has relaxed a negative edge
    [x]--[y]: [x] is finalised at 0 and [y] waits below 0. *)
Record doomed (x y : Z) (st : dstate) : Prop := {
  doom_src : dist st !! x = Some 0;
  doom_pending : dist st !! y = None;
  doom_entry : ∃ d c, (d, c, y) ∈ fringe st ∧ d < 0
}.

End Task2.


(** * [python_task_1.py] *)

Module Task1.

(** ** Column values *)

(** A float as far as comparisons see it: finite floats are rationals and
    compare exactly. *)
Inductive fnum := NaN | NegInf | Finite (q : Q) | PosInf.

Definition isna (x : fnum) : bool :=
  match x with NaN => true | _ => false end.

(** [a < b]; every comparison with NaN is false. *)
Definition flt (a b : fnum) : bool :=
  match a, b with
  | NaN, _ | _, NaN => false
  | NegInf, NegInf => false
  | NegInf, _ => true
  | Finite p, Finite q => negb (Qle_bool q p)
  | Finite _, PosInf => true
  | Finite _, NegInf => false
  | PosInf, _ => false
  end.

(** [a == b] *)
Definition feq (a b : fnum) : bool :=
  match a, b with
  | NegInf, NegInf => true
  | Finite p, Finite q => Qeq_bool p q
  | PosInf, PosInf => true
  | _, _ => false
  end.

(** [a <= b] *)
Definition fle (a b : fnum) : bool := flt a b || feq a b.

(** ** [pd.cut] with explicit bin edges and labels, [right=True] *)

(** [bins.searchsorted(x, side='left')] on sorted edges: the number of edges
    below [x]; NaN sorts after every edge. *)
Definition searchsorted_left (bins : list fnum) (x : fnum) : nat :=
  if isna x then length bins
  else length (filter (λ b, flt b x = true) bins).

Definition cut (bins : list fnum) (labels : list string)
    (include_lowest : bool) (x : fnum) : option string :=
  let ids := searchsorted_left bins x in
  let ids :=
    if include_lowest && match head bins with
                         | Some b0 => feq x b0
                         | None => false
                         end
    then 1%nat else ids in
  let na_mask := isna x || (ids =? length bins)%nat || (ids =? 0)%nat in
  if na_mask then None else labels !! (ids - 1)%nat.

(** ** Sorting, as [sorted] and [sort_values] do on short lists *)

Fixpoint insert_by {A} (leb : A → A → bool) (x : A) (l : list A) : list A :=
  match l with
  | [] => [x]
  | y :: l' => if leb x y then x :: l else y :: insert_by leb x l'
  end.

Definition sort_by {A} (leb : A → A → bool) (l : list A) : list A :=
  foldr (insert_by leb) [] l.

(** [Series.value_counts()] of a categorical column: one count per
    category, unobserved ones included, missing values dropped, largest
    count first. *)
Definition value_counts (categories : list string)
    (col : list (option string)) : list (string * nat) :=
  sort_by (λ a b : string * nat, (b.2 <=? a.2)%nat)
    ((λ c, (c, length (filter (λ v, v = Some c) col))) <$> categories).

(** [d[key]] on a dictionary kept as an association list. *)
Fixpoint dict_get {V} (key : string) (d : list (string * V)) : option V :=
  match d with
  | [] => None
  | (k, v) :: d' => if decide (key = k) then Some v else dict_get key d'
  end.

Definition car_bins : list fnum :=
  [NegInf; Finite (15 # 1); Finite (25 # 1); PosInf].
Definition car_labels : list string := ["low"; "medium"; "high"].

(** [get_type_count(df)], with [df] given by its ['car'] column; the
    returned dictionary lists its items in insertion order. *)
Definition get_type_count (car : list fnum) : list (string * nat) :=
  let car_type := cut car_bins car_labels true <$> car in
  let type_counts := value_counts car_labels car_type in
  omap (λ key, (λ n, (key, n)) <$> dict_get key type_counts)
       (sort_by String.leb type_counts.*1).

(** The buckets as the claim words them. *)
Definition is_low (x : fnum) : bool := fle x (Finite (15 # 1)).
Definition is_medium (x : fnum) : bool :=
  flt (Finite (15 # 1)) x && fle x (Finite (25 # 1)).
Definition is_high (x : fnum) : bool := flt (Finite (25 # 1)) x.

(** The keys are listed in strictly ascending order. *)
Fixpoint ascending (keys : list string) : bool :=
  match keys with
  | a :: (b :: _) as rest => String.ltb a b && ascending rest
  | _ => true
  end.

Definition count_if (P : fnum → bool) (car : list fnum) : nat :=
  length (filter (λ x, P x = true) car).

(** ** [multiply_matrix] on a heap of frames *)

Section multiply.

(** The cell type and its arithmetic: product, [>], rounding to a number
    of decimals, and the three literals of the source. *)
Context {F : Type}.
Variables (fmul : F → F → F) (fgt : F → F → bool) (round_to : nat → F → F).
Variables (lit_0_75 lit_1_25 lit_20 : F).

Record DataFrame := mkDataFrame {
  df_index : list Z;
  df_columns : list Z;
  df_values : list (list F)
}.

(** Frames live in a heap, a list of frame objects; an object is named by
    its address in that list, and a new object is put at the end. *)
Definition alloc (t : DataFrame) (h : list DataFrame)
  : list DataFrame * nat :=
  (h ++ [t], length h).

Definition map_cells (f : F → F) (t : DataFrame) : DataFrame :=
  {| df_index := df_index t; df_columns := df_columns t;
     df_values := map (map f) (df_values t) |}.

(** [t.copy()]: a new object with the same labels and cells. *)
Definition copy (h : list DataFrame) (r : nat)
  : option (list DataFrame * nat) :=
  t ← h !! r; Some (alloc t h).

(** [t.applymap(f)]: a new object. *)
Definition applymap (f : F → F) (h : list DataFrame) (r : nat)
  : option (list DataFrame * nat) :=
  t ← h !! r; Some (alloc (map_cells f t) h).

(** [t.round(decimals)]: a new object. *)
Definition round (decimals : nat) (h : list DataFrame) (r : nat)
  : option (list DataFrame * nat) :=
  t ← h !! r; Some (alloc (map_cells (round_to decimals) t) h).

Definition multiply_matrix (h : list DataFrame) (input_matrix : nat)
  : option (list DataFrame * nat) :=
  '(h, modified_matrix) ← copy h input_matrix;
  '(h, modified_matrix) ←
    applymap (λ x, if fgt x lit_20 then fmul x lit_0_75 else fmul x lit_1_25)
             h modified_matrix;
  '(h, modified_matrix) ← round 1 h modified_matrix;
  Some (h, modified_matrix).

(** The cell transformation as the claim words it. *)
Definition scaled_cell (x : F) : F :=
  if fgt x lit_20 then round_to 1 (fmul x lit_0_75)
  else round_to 1 (fmul x lit_1_25).

End multiply.

(** ** An exact decimal instance of the cell arithmetic *)

(** Nearest integer, ties to even. *)
Definition rint (q : Q) : Z :=
  let f := Qfloor q in
  match (q - inject_Z f ?= 1 # 2)%Q with
  | Lt => f
  | Gt => (f + 1)%Z
  | Eq => if Z.even f then f else (f + 1)%Z
  end.

(** [np.round(x, decimals)]: scale, round to nearest, scale back. *)
Definition Qround_to (decimals : nat) (q : Q) : Q :=
  let s := inject_Z (10 ^ Z.of_nat decimals) in
  Qred (inject_Z (rint (q * s)) / s).

Definition Qgt_bool (a b : Q) : bool := negb (Qle_bool a b).

(** A two-by-two frame with cells 10, 30, 20, 21. *)
Definition sample_matrix : DataFrame (F:=Q) :=
  {| df_index := [1; 2]; df_columns := [1; 2];
     df_values := [[10 # 1; 30 # 1]; [20 # 1; 21 # 1]]%Q |}.

Definition multiply_matrix_Q
  : list DataFrame → nat → option (list DataFrame * nat) :=
  multiply_matrix Qmult Qgt_bool Qround_to (3 # 4) (5 # 4) (20 # 1).

End Task1.

(** * Further definitions for [python_task_2.py] *)

Module Task2More.
Import Task2.

(** The same edge, named from its other end. *)
Definition flip_row (r : Row) : Row :=
  mkRow (id_end r) (id_start r) (distance r).

(** The input with every row repeated the other way round, after the
    original rows. *)
Definition both_ways (df : list Row) : list Row := df ++ (flip_row <$> df).

(** The cells off the diagonal of a frame, row by row. *)
Definition off_diagonal (dm : Frame) : list UnrolledRow :=
  i ← index dm; j ← columns dm;
  if decide (i ≠ j) then [mkURow i j (default None (loc dm i j))] else [].

(** A frame holds a cell for every pair of a row and a column label, as
    every pandas frame does. *)
Definition complete (dm : Frame) : Prop :=
  ∀ i j, i ∈ index dm → j ∈ columns dm → is_Some (loc dm i j).

End Task2More.

(** ** [calculate_toll_rate]: named columns, and a frame changed in place *)

Module TollRate.

Section toll.

(** The cell type, the product of two cells, and the five rate literals
    of the source. *)
Context {F : Type}.
Variable fmul : F → F → F.
Variables lit_0_8 lit_1_2 lit_1_5 lit_2_2 lit_3_6 : F.

(** A frame: one index and an insertion-ordered dictionary of columns. *)
Record Table := mkTable {
  t_index : list Z;
  t_columns : list (string * list F)
}.

(** [d[name] = col]: an existing name keeps its place, a new one goes
    last. *)
Fixpoint col_set (name : string) (col : list F)
    (d : list (string * list F)) : list (string * list F) :=
  match d with
  | [] => [(name, col)]
  | (k, c) :: d' =>
      if decide (name = k) then (name, col) :: d'
      else (k, c) :: col_set name col d'
  end.

(** [df[name]] *)
Definition getitem (name : string) (df : Table) : run (list F) :=
  match Task1.dict_get name (t_columns df) with
  | Some col => Returns col
  | None => Raises KeyError
  end.

(** [df[name] = col], on the frame object itself *)
Definition setitem (name : string) (col : list F) (df : Table) : Table :=
  {| t_index := t_index df; t_columns := col_set name col (t_columns df) |}.

(** [df.drop(columns=[name])]: a new frame without the columns of that
    name; [KeyError] when there is none. *)
Definition drop_column (name : string) (df : Table) : run Table :=
  match Task1.dict_get name (t_columns df) with
  | Some _ =>
      Returns {| t_index := t_index df;
                 t_columns := filter (λ kc, kc.1 ≠ name) (t_columns df) |}
  | None => Raises KeyError
  end.

Definition rate_coefficients : list (string * F) :=
  [("moto", lit_0_8); ("car", lit_1_2); ("rv", lit_1_5); ("bus", lit_2_2);
   ("truck", lit_3_6)].

(** [series * rate_coefficient] *)
Definition scale (col : list F) (rate_coefficient : F) : list F :=
  map (λ x, fmul x rate_coefficient) col.

(** [for vehicle_type, rate_coefficient in rate_coefficients.items(): ...].
    The frame that comes back is the state of the caller's object when the
    loop ends or raises. *)
Fixpoint rate_loop (rates : list (string * F)) (df : Table)
  : Table * run unit :=
  match rates with
  | [] => (df, Returns ())
  | (vehicle_type, rate_coefficient) :: rest =>
      match getitem "distance" df with
      | Returns distance =>
          rate_loop rest (setitem vehicle_type
                                  (scale distance rate_coefficient) df)
      | Raises e => (df, Raises e)
      | OutOfFuel => (df, OutOfFuel)
      end
  end.

(** [calculate_toll_rate(df)]: the final state of the argument object, and
    the outcome of the call. *)
Definition calculate_toll_rate (df : Table) : Table * run Table :=
  match rate_loop rate_coefficients df with
  | (df, Returns _) => (df, drop_column "distance" df)
  | (df, Raises e) => (df, Raises e)
  | (df, OutOfFuel) => (df, OutOfFuel)
  end.

(** The frame after the rates of [rates] have been written into it, one
    column after the other. *)
Definition with_rates (dist : list F) (rates : list (string * F))
    (df : Table) : Table :=
  fold_left (λ df vc, setitem vc.1 (scale dist vc.2) df) rates df.

(** The names of the columns, in order. *)
Definition column_names (df : Table) : list string := (t_columns df).*1.

End toll.

(** A frame with a distance column [10; 20] between two others, and the
    rates as exact fractions. *)
Definition sample_tolls : Table (F:=Q) :=
  {| t_index := [0; 1];
     t_columns := [("id_start", [1 # 1; 2 # 1]); ("distance", [10 # 1; 20 # 1]);
                   ("car", [0 # 1; 0 # 1])]%Q |}.

Definition calculate_toll_rate_Q : Table → Table * run Table :=
  calculate_toll_rate Qmult (4 # 5) (6 # 5) (3 # 2) (11 # 5) (18 # 5).

End TollRate.

(** ** [generate_car_matrix] and [get_bus_indexes]: the names of
    [python_task_1.py] *)

Module Task1More.
Import TollRate.

(** What a module-level name of [python_task_1] can be bound to. *)
Inductive gval :=
  | GModule (name : string)
  | GFunction (name : string)
  | GStr (s : string).

(** The globals once the top-level statements have run: one import and six
    function definitions; [file_path] is assigned nowhere. *)
Definition module_globals : gmap string gval :=
  list_to_map
    [("pd", GModule "pandas");
     ("generate_car_matrix", GFunction "generate_car_matrix");
     ("get_type_count", GFunction "get_type_count");
     ("get_bus_indexes", GFunction "get_bus_indexes");
     ("filter_routes", GFunction "filter_routes");
     ("multiply_matrix", GFunction "multiply_matrix");
     ("time_check", GFunction "time_check")].

Definition load_name (globals : gmap string gval) (name : string)
  : run gval :=
  match globals !! name with
  | Some v => Returns v
  | None => Raises NameError
  end.

(** A matrix with integer labels on both axes. *)
Record Matrix (F : Type) := mkMatrix {
  m_index : list Z;
  m_columns : list Z;
  m_cells : gmap (Z * Z) F
}.
Arguments mkMatrix {F}.
Arguments m_index {F}.
Arguments m_columns {F}.
Arguments m_cells {F}.

Section car_matrix.

(** The cells and the literal [0]; reading a file and pivoting what was
    read are the library's and the file system's business. *)
Context {F Csv : Type}.
Variable zero : F.
Variable read_csv : gval → run Csv.
Variable pivot_table : Csv → run (Matrix F).

(** [for index in p_car_matrix.index: if index in p_car_matrix.columns:
    p_car_matrix.loc[index, index] = 0] *)
Definition zero_diagonal (p_car_matrix : Matrix F) : Matrix F :=
  fold_left
    (λ m index,
       if decide (index ∈ m_columns m)
       then {| m_index := m_index m; m_columns := m_columns m;
               m_cells := <[(index, index) := zero]> (m_cells m) |}
       else m)
    (m_index p_car_matrix) p_car_matrix.

(** [generate_car_matrix(df)]: the parameter is overwritten at once by the
    frame read from [file_path]. *)
Definition generate_car_matrix (globals : gmap string gval) (df : Csv)
  : run (Matrix F) :=
  file_path ← load_name globals "file_path";
  df ← read_csv file_path;
  p_car_matrix ← pivot_table df;
  Returns (zero_diagonal p_car_matrix).

End car_matrix.

Section bus_indexes.

(** The cells with the mean of a column, the product, [>] and the literal
    [2]; reading a file gives a frame of named columns. *)
Context {F : Type}.
Variable fmean : list F → F.
Variable fmul : F → F → F.
Variable fgt : F → F → bool.
Variable lit_2 : F.
Variable read_csv : gval → run (Table (F:=F)).

(** [df[df['bus'] > x].index.tolist()]: the labels of the rows that pass. *)
Definition labels_above (x : F) (index : list Z) (bus : list F) : list Z :=
  (filter (λ ib : Z * F, fgt ib.2 x = true) (zip index bus)).*1.

Definition get_bus_indexes (globals : gmap string gval) : run (list Z) :=
  file_path ← load_name globals "file_path";
  df ← read_csv file_path;
  bus ← getitem "bus" df;
  let bus_mean := fmean bus in
  bus' ← getitem "bus" df;
  let bus_indexes := labels_above (fmul lit_2 bus_mean) (t_index df) bus' in
  Returns (Task2.sorted bus_indexes).

End bus_indexes.

(** A pivot of two rows and three columns, and a file system that holds it
    under every name. *)
Definition sample_pivot : Matrix Z :=
  {| m_index := [1; 2]; m_columns := [1; 2; 3];
     m_cells := list_to_map [((1, 1), 7); ((1, 2), 5); ((1, 3), 4);
                             ((2, 1), 6); ((2, 2), 8); ((2, 3), 9)] |}.

Definition sample_globals : gmap string gval :=
  <["file_path" := GStr "dataset-1.csv"]> module_globals.

(** A frame with a bus column, exact fractions for cells. *)
Definition sample_buses : Table (F:=Q) :=
  {| t_index := [0; 1; 2; 3];
     t_columns := [("bus", [1 # 1; 1 # 1; 9 # 1; 1 # 1])]%Q |}.

(** The arithmetic mean in exact fractions. *)
Definition Qmean (l : list Q) : Q :=
  (foldr Qplus (0 # 1) l / inject_Z (Z.of_nat (length l)))%Q.

End Task1More.

(** * Properties *)

(** ** Ordered dictionaries *)

Module OrderedDictFacts.
Import OrderedDict.

Section facts.
Context {V : Type}.
Implicit Types (d : list (Z * V)) (k : Z) (v : V).

Lemma get_set k k' v d :
  get k (set k' v d) = if decide (k = k') then Some v else get k d.
Proof.
  induction d as [|[k0 v0] d IH]; simpl.
  - repeat case_decide; congruence.
  - destruct (decide (k' = k0)) as [->|Hne]; simpl; rewrite ?IH;
      repeat case_decide; congruence.
Qed.

Lemma get_update k k' (f : V → V) d :
  get k (update k' f d) = if decide (k = k') then f <$> get k d else get k d.
Proof.
  induction d as [|[k0 v0] d IH]; simpl.
  - by case_decide.
  - destruct (decide (k' = k0)) as [->|Hne]; simpl; rewrite ?IH;
      repeat case_decide; subst; try congruence; done.
Qed.

Lemma keys_update k (f : V → V) d : keys (update k f d) = keys d.
Proof.
  unfold keys. induction d as [|[k0 v0] d IH]; [done|].
  simpl. case_decide; [done|]. rewrite !fmap_cons. by f_equal.
Qed.

Lemma get_Some_elem k v d : get k d = Some v → (k, v) ∈ d.
Proof.
  induction d as [|[k0 v0] d IH]; simpl; [done|].
  case_decide; intros; simplify_eq; [left | right; auto].
Qed.

Lemma get_None_keys k d : get k d = None ↔ k ∉ keys d.
Proof.
  unfold keys. induction d as [|[k0 v0] d IH]; simpl.
  - split; [intros _; apply not_elem_of_nil | done].
  - rewrite not_elem_of_cons. case_decide; subst.
    + split; [done | intros [? _]; done].
    + rewrite IH. tauto.
Qed.

Lemma get_is_Some_keys k d : is_Some (get k d) ↔ k ∈ keys d.
Proof.
  rewrite <- not_eq_None_Some, get_None_keys.
  destruct (decide (k ∈ keys d)); tauto.
Qed.

Lemma elem_get k v d : NoDup (keys d) → (k, v) ∈ d → get k d = Some v.
Proof.
  unfold keys. induction d as [|[k0 v0] d IH]; simpl.
  - intros _ H. by apply elem_of_nil in H.
  - rewrite NoDup_cons. intros [Hk0 Hnd] [Heq|Hin]%elem_of_cons.
    + simplify_eq. by rewrite decide_True.
    + case_decide; [|auto]. subst. exfalso. apply Hk0.
      apply list_elem_of_fmap. by exists (k0, v).
Qed.

Lemma keys_cons k v d : keys ((k, v) :: d) = k :: keys d.
Proof. done. Qed.

Lemma keys_set k v d :
  keys (set k v d) = if decide (k ∈ keys d) then keys d else keys d ++ [k].
Proof.
  induction d as [|[k0 v0] d IH]; [done|].
  cbn [set]. rewrite keys_cons.
  destruct (decide (k = k0)) as [->|Hne]; rewrite keys_cons.
  - rewrite decide_True; [done | left].
  - rewrite IH. destruct (decide (k ∈ keys d)).
    + rewrite decide_True; [done | by right].
    + rewrite decide_False; [done |]. rewrite elem_of_cons. tauto.
Qed.

Lemma NoDup_keys_set k v d : NoDup (keys d) → NoDup (keys (set k v d)).
Proof.
  intros Hnd. rewrite keys_set. case_decide; [done|].
  apply NoDup_app. split_and!; [done | | apply NoDup_singleton].
  intros x Hx ->%list_elem_of_singleton. done.
Qed.

End facts.
End OrderedDictFacts.

(** ** The graph built by [add_edge] *)

Module GraphFacts.
Import Task2 OrderedDictFacts.

Lemma get_ensure_node x u G :
  OD.get x (ensure_node u G)
  = if decide (x = u) then Some (default [] (OD.get u G)) else OD.get x G.
Proof.
  unfold ensure_node. destruct (OD.get u G) as [a|] eqn:Hu.
  - case_decide; subst; done.
  - by rewrite get_set.
Qed.

Lemma keys_ensure_node u G :
  NoDup (OD.keys G) → NoDup (OD.keys (ensure_node u G)).
Proof.
  unfold ensure_node. destruct (OD.get u G); [done|]. apply NoDup_keys_set.
Qed.

Lemma get_add_edge x u v w G :
  OD.get x (add_edge u v w G)
  = if decide (x = v) then
      Some (OD.set u w (if decide (u = v)
                        then OD.set v w (default [] (OD.get v G))
                        else default [] (OD.get v G)))
    else if decide (x = u) then Some (OD.set v w (default [] (OD.get u G)))
    else OD.get x G.
Proof.
  unfold add_edge. rewrite !get_update, !get_ensure_node.
  repeat case_decide; simplify_eq; simpl; try done.
Qed.

Lemma weight_add_edge x y u v w G :
  weight (add_edge u v w G) x y
  = if decide ((x = u ∧ y = v) ∨ (x = v ∧ y = u)) then Some w
    else weight G x y.
Proof.
  assert (∀ z, OD.get y (default [] (OD.get z G)) = OD.get z G ≫= OD.get y)
    as Hd by (intros z; by destruct (OD.get z G)).
  unfold weight. rewrite get_add_edge.
  destruct (decide (x = u)), (decide (x = v)), (decide (y = u)),
    (decide (y = v)); simplify_eq; simpl;
    repeat (rewrite get_set || case_decide); simplify_eq; rewrite ?Hd;
    try done; try (exfalso; tauto).
Qed.

Lemma add_edge_wf u v w G : graph_wf G → graph_wf (add_edge u v w G).
Proof.
  intros [Hn Hb Hs]. split.
  - unfold add_edge. rewrite !keys_update.
    by do 2 apply keys_ensure_node.
  - intros x nbrs. rewrite get_add_edge.
    assert (∀ z, NoDup (OD.keys (default [] (OD.get z G)))) as Hd.
    { intros z. destruct (OD.get z G) eqn:Hz; simpl; [eauto | apply NoDup_nil_2]. }
    repeat case_decide; intros; simplify_eq; eauto using NoDup_keys_set.
  - intros x y. rewrite !weight_add_edge, Hs.
    repeat case_decide; try done; exfalso; tauto.
Qed.

Lemma empty_wf : graph_wf [].
Proof. split; [apply NoDup_nil_2 | done | done]. Qed.

Lemma fold_add_edge_wf df G :
  graph_wf G →
  graph_wf (fold_left (λ G row, add_edge (id_start row) (id_end row)
                                         (distance row) G) df G).
Proof.
  revert G. induction df as [|r df IH]; intros G HG; simpl; [done|].
  apply IH, add_edge_wf, HG.
Qed.

Lemma build_graph_wf df : graph_wf (build_graph df).
Proof. apply fold_add_edge_wf, empty_wf. Qed.

(** Last write wins: the datum of an edge is the distance of the last row
    that joins its endpoints. *)
Lemma weight_build_graph df u v :
  weight (build_graph df) u v = last_weight u v df.
Proof.
  unfold build_graph, last_weight.
  change (@None Z) with (weight [] u v). generalize ([] : Graph).
  induction df as [|r df IH]; intros G; simpl; [done|].
  rewrite IH, weight_add_edge. unfold joins.
  repeat case_decide; try done; exfalso; intuition subst; auto.
Qed.

Lemma last_weight_elem u v df c :
  last_weight u v df = Some c → ∃ r, r ∈ df ∧ joins r u v ∧ distance r = c.
Proof.
  unfold last_weight.
  assert (∀ acc, fold_left (λ acc r, if decide (joins r u v)
                                  then Some (distance r) else acc) df acc
                 = Some c →
                 acc = Some c ∨ ∃ r, r ∈ df ∧ joins r u v ∧ distance r = c)
    as H.
  { induction df as [|r df IH]; intros acc; simpl; [by left|].
    intros [Hacc | (r' & ? & ? & ?)]%IH.
    - case_decide; simplify_eq; [| by left].
      right. exists r. split_and!; [left | done..].
    - right. exists r'. split_and!; [by right | done..]. }
  intros [?|?]%H; done.
Qed.

Lemma edge_weight G u v c :
  graph_wf G → (edge G u v c ↔ weight G u v = Some c).
Proof.
  intros HG. unfold edge, weight. split.
  - intros (nbrs & Hu & Hin). rewrite Hu. simpl. apply elem_get; [|done].
    by eapply wf_nbrs.
  - destruct (OD.get u G) as [nbrs|]; simpl; [|done].
    intros ?%get_Some_elem. eauto.
Qed.

Lemma edge_sym G u v c : graph_wf G → edge G u v c → edge G v u c.
Proof.
  intros HG. rewrite !edge_weight by done. by rewrite (wf_sym _ HG).
Qed.

Lemma edge_node_l G u v c : edge G u v c → is_Some (OD.get u G).
Proof. intros (nbrs & -> & _). eauto. Qed.

Lemma edge_node_r G u v c : graph_wf G → edge G u v c → is_Some (OD.get v G).
Proof. intros HG ?%edge_sym; [by eapply edge_node_l | done]. Qed.

Lemma edge_build_graph_nonneg df u v c :
  Forall (λ r, 0 ≤ distance r) df → edge (build_graph df) u v c → 0 ≤ c.
Proof.
  intros Hdf. rewrite edge_weight, weight_build_graph by apply build_graph_wf.
  intros (r & Hr & _ & <-)%last_weight_elem.
  by eapply Forall_forall in Hdf.
Qed.

End GraphFacts.

(** ** The heap and the termination of the main loop *)

Module LoopFacts.
Import Task2 OrderedDictFacts.

Lemma entry_leb_true a b : entry_leb a b = true → a.1.1 ≤ b.1.1.
Proof.
  destruct a as [[da ca] va], b as [[db cb] vb]; simpl.
  rewrite orb_true_iff, andb_true_iff, Z.ltb_lt, Z.eqb_eq. lia.
Qed.

Lemma entry_leb_false a b : entry_leb a b = false → b.1.1 ≤ a.1.1.
Proof.
  destruct a as [[da ca] va], b as [[db cb] vb]; simpl.
  rewrite orb_false_iff, Z.ltb_ge. lia.
Qed.

Lemma heappop_None h : heappop h = None → h = [].
Proof.
  destruct h as [|e h]; simpl; [done|].
  destruct (heappop h) as [[m r]|]; [case_match|]; done.
Qed.

Lemma heappop_perm h m r : heappop h = Some (m, r) → h ≡ₚ m :: r.
Proof.
  revert m r. induction h as [|e h IH]; intros m r; simpl; [done|].
  destruct (heappop h) as [[m' r']|] eqn:Hp.
  - specialize (IH _ _ eq_refl). case_match; intros; simplify_eq; [done|].
    rewrite IH. apply Permutation_swap.
  - intros; simplify_eq. by rewrite (heappop_None _ Hp).
Qed.

Lemma heappop_min h m r e :
  heappop h = Some (m, r) → e ∈ h → m.1.1 ≤ e.1.1.
Proof.
  revert m r. induction h as [|e0 h IH]; intros m r; simpl; [done|].
  destruct (heappop h) as [[m' r']|] eqn:Hp.
  - specialize (IH _ _ eq_refl).
    destruct (entry_leb e0 m') eqn:Hle; intros ? [->|Hin]%elem_of_cons;
      simplify_eq; try lia.
    + apply entry_leb_true in Hle. specialize (IH Hin). lia.
    + by apply entry_leb_false.
    + auto.
  - rewrite (heappop_None _ Hp). intros ? [->|Hin]%elem_of_cons; simplify_eq.
    + lia.
    + by apply elem_of_nil in Hin.
Qed.

Lemma heappop_elem h m r e :
  heappop h = Some (m, r) → (e ∈ h ↔ e = m ∨ e ∈ r).
Proof. intros ->%heappop_perm. apply elem_of_cons. Qed.

Lemma heappop_length h m r :
  heappop h = Some (m, r) → length h = S (length r).
Proof. by intros ->%heappop_perm. Qed.

(** Relaxing the neighbours of a node leaves [dist] alone and pushes at
    most one tuple per neighbour. *)
Lemma relax_frame dv nbrs st st' :
  relax dv nbrs st = Returns st' →
  dist st' = dist st ∧
  (length (fringe st') ≤ length (fringe st) + length nbrs)%nat ∧
  (∀ e, e ∈ fringe st → e ∈ fringe st').
Proof.
  revert st. induction nbrs as [|[u cost] nbrs IH]; intros st; simpl.
  - intros; simplify_eq. split_and!; [done | lia | done].
  - assert (∀ x, relax dv nbrs (push x u st) = Returns st' →
      dist st' = dist st ∧
      (length (fringe st') ≤ length (fringe st) + S (length nbrs))%nat ∧
      (∀ e, e ∈ fringe st → e ∈ fringe st')) as Hpush.
    { intros x (Hd & Hl & Hf)%IH. simpl in *. split_and!; [done | lia |].
      intros e He. apply Hf. by right. }
    assert (relax dv nbrs st = Returns st' →
      dist st' = dist st ∧
      (length (fringe st') ≤ length (fringe st) + S (length nbrs))%nat ∧
      (∀ e, e ∈ fringe st → e ∈ fringe st')) as Hskip.
    { intros (Hd & Hl & Hf)%IH. split_and!; [done | lia | done]. }
    repeat case_match; eauto; done.
Qed.

Lemma relax_fuel dv nbrs st : relax dv nbrs st ≠ OutOfFuel.
Proof.
  revert st. induction nbrs as [|[u cost] nbrs IH]; intros st; simpl; [done|].
  repeat case_match; done.
Qed.

Lemma pending_work_mono G dst v d :
  (pending_work G (<[v := d]> dst) ≤ pending_work G dst)%nat.
Proof.
  unfold pending_work. induction G as [|[k a] G IH]; simpl; [done|].
  destruct (decide (v = k)) as [->|Hne].
  - rewrite lookup_insert_eq. lia.
  - rewrite lookup_insert_ne by done. lia.
Qed.

Lemma pending_work_insert G dst v d nbrs :
  OD.get v G = Some nbrs → dst !! v = None →
  (pending_work G (<[v := d]> dst) + S (length nbrs)
   ≤ pending_work G dst)%nat.
Proof.
  unfold pending_work. intros Hget Hv.
  induction G as [|[k a] G IH]; simpl in *; [done|].
  destruct (decide (v = k)) as [->|Hne].
  - simplify_eq. rewrite lookup_insert_eq, Hv.
    pose proof (pending_work_mono G dst k d) as Hm.
    unfold pending_work in Hm. lia.
  - rewrite lookup_insert_ne by done. specialize (IH Hget). lia.
Qed.

(** The loop always ends within [remaining] iterations. *)
Lemma dijkstra_loop_fuel G fuel st :
  (remaining G st ≤ fuel)%nat → dijkstra_loop fuel G st ≠ OutOfFuel.
Proof.
  revert st. induction fuel as [|fuel IH]; intros st Hm; simpl.
  - destruct (heappop (fringe st)) as [[[[d c] v] rest]|] eqn:Hp; [|done].
    apply heappop_length in Hp. unfold remaining in Hm. lia.
  - destruct (heappop (fringe st)) as [[[[d c] v] rest]|] eqn:Hp; [|done].
    apply heappop_length in Hp. unfold remaining in *.
    destruct (dist st !! v) eqn:Hv.
    + apply IH. simpl. lia.
    + destruct (OD.get v G) as [nbrs|] eqn:Hg; [|done].
      destruct (relax d nbrs _) as [st'| |] eqn:Hr; simpl; [|done|].
      * apply relax_frame in Hr as (Hd & Hl & _). simpl in *.
        apply IH. rewrite Hd.
        pose proof (pending_work_insert G (dist st) v d nbrs Hg Hv). lia.
      * by apply relax_fuel in Hr.
Qed.

Lemma single_source_fuel G s :
  single_source_dijkstra_path_length G s ≠ OutOfFuel.
Proof.
  apply dijkstra_loop_fuel. unfold remaining. simpl. lia.
Qed.

End LoopFacts.

(** ** Walks *)

Module WalkFacts.
Import Task2 GraphFacts.

Lemma walk_snoc G u v x w c :
  walk G u v w → edge G v x c → walk G u x (w + c).
Proof.
  induction 1 as [u|u y v c0 w He Hw IH]; intros Hx.
  - replace (0 + c) with (c + 0) by lia. eauto using walk.
  - replace (c0 + w + c) with (c0 + (w + c)) by lia. eauto using walk.
Qed.

Lemma walk_trans G u v x w w' :
  walk G u v w → walk G v x w' → walk G u x (w + w').
Proof.
  induction 1 as [u|u y v c0 w He Hw IH]; intros Hx; [done|].
  replace (c0 + w + w') with (c0 + (w + w')) by lia. eauto using walk.
Qed.

Lemma walk_rev G u v w : graph_wf G → walk G u v w → walk G v u w.
Proof.
  intros HG. induction 1 as [u|u y v c0 w He Hw IH]; [constructor|].
  replace (c0 + w) with (w + c0) by lia.
  eapply walk_snoc; [done|]. by apply edge_sym.
Qed.

Lemma walk_nonneg G u v w :
  (∀ a b c, edge G a b c → 0 ≤ c) → walk G u v w → 0 ≤ w.
Proof.
  intros Hnn. induction 1 as [u|u y v c0 w He Hw IH]; [done|].
  apply Hnn in He. lia.
Qed.

Lemma walk_node G u v w :
  (∀ a b c, edge G a b c → is_Some (OD.get b G)) →
  walk G u v w → is_Some (OD.get u G) → is_Some (OD.get v G).
Proof. intros Hcl. induction 1; eauto. Qed.

Lemma connected_sym G u v : graph_wf G → connected G u v → connected G v u.
Proof. intros HG [w Hw]. exists w. by apply walk_rev. Qed.

Lemma shortest_dist_sym G u v d :
  graph_wf G → shortest_dist G u v d → shortest_dist G v u d.
Proof.
  intros HG [Hw Hmin]. split; [by apply walk_rev|].
  intros d' Hd'. apply Hmin. by apply walk_rev.
Qed.

Lemma shortest_dist_unique G u v d d' :
  shortest_dist G u v d → shortest_dist G u v d' → d = d'.
Proof. intros [Hw Hmin] [Hw' Hmin']. apply Hmin in Hw'. apply Hmin' in Hw. lia. Qed.

End WalkFacts.

(** ** Correctness of the search on non-negative edge data *)

Module DijkstraFacts.
Import Task2 OrderedDictFacts GraphFacts LoopFacts WalkFacts.

Section search.
Variables (G : Graph) (s : Z).
Hypothesis Hnn : ∀ a b c, edge G a b c → 0 ≤ c.
Hypothesis Hclosed : ∀ a b c, edge G a b c → is_Some (OD.get b G).
Hypothesis Hsrc : is_Some (OD.get s G).

Lemma inv_weaken (ex ex' : Z → Z → Z → Prop) st :
  (∀ v u c, ex v u c → ex' v u c) →
  dijkstra_inv G s ex st → dijkstra_inv G s ex' st.
Proof.
  intros Hex [H1 H2 H3 H4 H5 H6]. split; try done.
  intros v dv u cost Hv He Hu.
  destruct (H5 v dv u cost Hv He Hu) as [?|?]; auto.
Qed.

Lemma init_inv : dijkstra_inv G s exempt_none (init_state s).
Proof.
  split; simpl.
  - intros _. exists O. apply list_elem_of_singleton. done.
  - intros v d. by rewrite lookup_empty.
  - intros d c v [=]%list_elem_of_singleton. subst. constructor.
  - intros d c v u du _. by rewrite lookup_empty.
  - intros v dv u cost. by rewrite lookup_empty.
  - intros u su [<- <-]%lookup_singleton_Some _. exists O.
    by apply list_elem_of_singleton.
Qed.

(** A walk that leaves the finalised nodes passes through a node that
    waits in the heap, at a distance no larger than the walk's. *)
Lemma walk_crosses_fringe st a v w da :
  dijkstra_inv G s exempt_none st →
  walk G a v w → dist st !! a = Some da → dist st !! v = None →
  ∃ d c b, (d, c, b) ∈ fringe st ∧ d ≤ da + w.
Proof.
  intros Hinv Hw. revert da.
  induction Hw as [u|u x v c0 w He Hw IH]; intros da Ha Hv; [congruence|].
  destruct (dist st !! x) as [dx|] eqn:Hx.
  - destruct (IH dx eq_refl Hv) as (d & c & b & Hin & Hle).
    exists d, c, b. split; [done|].
    destruct (inv_dist _ _ _ _ Hinv _ _ Hx) as [_ Hmin].
    destruct (inv_dist _ _ _ _ Hinv _ _ Ha) as [Hwa _].
    specialize (Hmin _ (walk_snoc _ _ _ _ _ _ Hwa He)). lia.
  - destruct (inv_out _ _ _ _ Hinv _ _ _ _ Ha He Hx) as [[]|(d & c & Hin & Hle)].
    exists d, c, x. split; [done|].
    pose proof (walk_nonneg _ _ _ _ Hnn Hw). lia.
Qed.

Lemma relax_inv v d nbrs st :
  dijkstra_inv G s (exempt_at v nbrs) st →
  dist st !! v = Some d →
  (∀ u du, dist st !! u = Some du → du ≤ d) →
  (∀ u c, (u, c) ∈ nbrs → edge G v u c) →
  ∃ st', relax d nbrs st = Returns st' ∧ dijkstra_inv G s exempt_none st'.
Proof.
  revert st. induction nbrs as [|[u cost] nbrs IH]; intros st Hinv Hv Hle Hed.
  - exists st. split; [done|]. eapply inv_weaken; [|done].
    intros ??? [_ []%elem_of_nil].
  - assert (edge G v u cost) as He by (apply Hed; left).
    assert (0 ≤ cost) as Hc by eauto.
    assert (∀ u' c', (u', c') ∈ nbrs → edge G v u' c') as Hed'
      by (intros; apply Hed; by right).
    (* the state after a push *)
    assert (dijkstra_inv G s (exempt_at v nbrs) (push (d + cost) u st)
            ∨ is_Some (dist st !! u)) as Hpush.
    { destruct (dist st !! u) as [du|] eqn:Hu; [right; eauto | left].
      destruct Hinv as [H1 H2 H3 H4 H5 H6]. split; simpl.
      - intros [c Hin]%H1. exists c. by right.
      - done.
      - intros d' c' v' [?|?]%elem_of_cons; [simplify_eq | eauto].
        destruct (H2 _ _ Hv) as [Hwv _]. by eapply walk_snoc.
      - intros d' c' v' u' du' [?|?]%elem_of_cons Hu'; [simplify_eq | eauto].
        apply Hle in Hu'. lia.
      - intros v' dv' u' cost' Hv' He' Hu'.
        destruct (H5 _ _ _ _ Hv' He' Hu') as [[-> Hin]|(d' & c' & Hin & ?)].
        + apply elem_of_cons in Hin as [?|?]; [simplify_eq | by left; split].
          right. exists (d + cost), (counter st). split; [left | lia].
        + right. exists d', c'. split; [by right | done].
      - intros u' su'. destruct (decide (u' = u)) as [->|Hne].
        + rewrite lookup_insert_eq. intros [= <-] _.
          exists (counter st). left.
        + rewrite lookup_insert_ne by done. intros Hs' Hu'.
          destruct (H6 _ _ Hs' Hu') as [c' ?]. exists c'. by right. }
    simpl. destruct (dist st !! u) as [du|] eqn:Hu.
    + (* [u] already finalised: no contradiction, nothing changes *)
      pose proof (Hle _ _ Hu). rewrite (proj2 (Z.ltb_ge _ _)) by lia.
      apply IH; try done.
      destruct Hinv as [H1 H2 H3 H4 H5 H6]. split; try done.
      intros v' dv' u' cost' Hv' He' Hu'.
      destruct (H5 _ _ _ _ Hv' He' Hu') as [[-> Hin]|?]; [|by right].
      apply elem_of_cons in Hin as [?|?]; [simplify_eq | by left; split].
    + destruct Hpush as [Hpush|[? [=]]].
      assert (dist (push (d + cost) u st) !! v = Some d) as Hv' by done.
      destruct (seen st !! u) as [su|] eqn:Hsu; [|by apply IH].
      destruct (d + cost <? su) eqn:Hlt; [by apply IH|].
      apply Z.ltb_ge in Hlt. apply IH; try done.
      destruct Hinv as [H1 H2 H3 H4 H5 H6]. split; try done.
      intros v' dv' u' cost' Hv'' He' Hu'.
      destruct (H5 _ _ _ _ Hv'' He' Hu') as [[-> Hin]|?]; [|by right].
      apply elem_of_cons in Hin as [?|?]; [simplify_eq | by left; split].
      right. destruct (H6 _ _ Hsu Hu) as [c' ?]. exists su, c'. split; [done | lia].
Qed.

(** Popping a tuple of a node that is already finalised. *)
Lemma pop_skip_inv st d c v rest :
  dijkstra_inv G s exempt_none st →
  heappop (fringe st) = Some ((d, c, v), rest) →
  is_Some (dist st !! v) →
  dijkstra_inv G s exempt_none
    {| dist := dist st; seen := seen st; fringe := rest;
       counter := counter st |}.
Proof.
  intros [H1 H2 H3 H4 H5 H6] Hp [dv Hv].
  pose proof (λ e, heappop_elem _ _ _ e Hp) as Hel.
  assert (∀ d' c' u, dist st !! u = None →
            (d', c', u) ∈ fringe st → (d', c', u) ∈ rest) as Hkeep.
  { intros d' c' u Hu [?|?]%Hel; [simplify_eq | done]. }
  split; simpl.
  - intros Hs. destruct (H1 Hs) as [c0 ?]. exists c0. eauto.
  - done.
  - intros d' c' v' Hin. eapply H3, Hel. by right.
  - intros d' c' v' u du Hin. eapply H4, Hel. by right.
  - intros v' dv' u cost Hv' He Hu.
    destruct (H5 _ _ _ _ Hv' He Hu) as [[]|(d' & c' & Hin & ?)].
    right. exists d', c'. eauto.
  - intros u su Hs Hu. destruct (H6 _ _ Hs Hu) as [c' ?]. exists c'. eauto.
Qed.

(** Popping the tuple that finalises a node: its distance is shortest, and
    the invariant holds again up to the edges out of that node. *)
Lemma pop_finalise_inv st d c v rest nbrs :
  dijkstra_inv G s exempt_none st →
  heappop (fringe st) = Some ((d, c, v), rest) →
  dist st !! v = None →
  OD.get v G = Some nbrs →
  let st1 := {| dist := <[v := d]> (dist st); seen := seen st;
                fringe := rest; counter := counter st |} in
  dijkstra_inv G s (exempt_at v nbrs) st1 ∧
  (∀ u du, dist st1 !! u = Some du → du ≤ d).
Proof.
  intros Hinv Hp Hv Hg st1.
  pose proof (λ e, heappop_elem _ _ _ e Hp) as Hel.
  pose proof (λ e, heappop_min _ _ _ e Hp) as Hmin. simpl in Hmin.
  assert ((d, c, v) ∈ fringe st) as Hpopped by (apply Hel; by left).
  assert (∀ d' c' u, u ≠ v →
            (d', c', u) ∈ fringe st → (d', c', u) ∈ rest) as Hkeep.
  { intros d' c' u Hu [?|?]%Hel; [simplify_eq | done]. }
  assert (∀ u du, dist st1 !! u = Some du → du ≤ d) as Hle.
  { intros u du. subst st1; simpl.
    destruct (decide (u = v)) as [->|Hne].
    - rewrite lookup_insert_eq. intros [= <-]. lia.
    - rewrite lookup_insert_ne by done. intros Hu.
      by eapply (inv_mono _ _ _ _ Hinv). }
  split; [|done].
  assert (shortest_dist G s v d) as Hshort.
  { split; [by eapply (inv_walk _ _ _ _ Hinv)|].
    intros d' Hw'. destruct (dist st !! s) as [ds|] eqn:Hs.
    - destruct (walk_crosses_fringe _ _ _ _ _ Hinv Hw' Hs Hv)
        as (d0 & c0 & b & Hin & ?).
      apply Hmin in Hin. simpl in Hin.
      destruct (inv_dist _ _ _ _ Hinv _ _ Hs) as [_ Hs0].
      specialize (Hs0 0 (walk_nil _ _)). lia.
    - destruct (inv_src _ _ _ _ Hinv Hs) as [c0 Hin].
      apply Hmin in Hin. simpl in Hin.
      pose proof (walk_nonneg _ _ _ _ Hnn Hw'). lia. }
  destruct Hinv as [H1 H2 H3 H4 H5 H6]. subst st1. split; simpl.
  - intros Hs. apply lookup_insert_None in Hs as [Hs ?].
    destruct (H1 Hs) as [c0 ?]. exists c0. eauto.
  - intros u du. destruct (decide (u = v)) as [->|Hne].
    + rewrite lookup_insert_eq. by intros [= <-].
    + rewrite lookup_insert_ne by done. eauto.
  - intros d' c' v' Hin. eapply H3, Hel. by right.
  - intros d' c' v' u du Hin. destruct (decide (u = v)) as [->|Hne].
    + rewrite lookup_insert_eq. intros [= <-].
      assert ((d', c', v') ∈ fringe st) as Hin' by (apply Hel; by right).
      by apply Hmin in Hin'.
    + rewrite lookup_insert_ne by done. eapply H4, Hel. by right.
  - intros v' dv' u cost Hv' He Hu.
    apply lookup_insert_None in Hu as [Hu Hne].
    destruct (decide (v' = v)) as [->|Hne'].
    + left. split; [done|]. destruct He as (nbrs' & Hg' & Hin). congruence.
    + rewrite lookup_insert_ne in Hv' by done.
      destruct (H5 _ _ _ _ Hv' He Hu) as [[]|(d' & c' & Hin & ?)].
      right. exists d', c'. eauto.
  - intros u su Hs Hu. apply lookup_insert_None in Hu as [Hu Hne].
    destruct (H6 _ _ Hs Hu) as [c' ?]. exists c'. eauto.
Qed.

(** With the invariant, the loop neither raises nor returns a wrong map. *)
Lemma dijkstra_loop_inv fuel st :
  dijkstra_inv G s exempt_none st →
  match dijkstra_loop fuel G st with
  | Returns dst => dijkstra_post G s dst
  | Raises _ => False
  | OutOfFuel => True
  end.
Proof.
  revert st. induction fuel as [|fuel IH]; intros st Hinv; simpl.
  all: destruct (heappop (fringe st)) as [[[[d c] v] rest]|] eqn:Hp; [|].
  all: try done.
  all: try (
    (* the heap is empty: the search is over *)
    apply heappop_None in Hp; split; [apply (inv_dist _ _ _ _ Hinv)|];
    intros v w Hw; destruct (dist st !! v) as [dv|] eqn:Hv; [eauto|];
    exfalso; destruct (dist st !! s) as [ds|] eqn:Hs;
    [ destruct (walk_crosses_fringe _ _ _ _ _ Hinv Hw Hs Hv)
        as (d0 & c0 & b & Hin & _)
    | destruct (inv_src _ _ _ _ Hinv Hs) as [c0 Hin] ];
    rewrite Hp in Hin; by apply elem_of_nil in Hin).
  destruct (dist st !! v) as [dv|] eqn:Hv.
  - apply IH. eapply pop_skip_inv; eauto.
  - assert (is_Some (OD.get v G)) as [nbrs Hg].
    { eapply walk_node; [done | | done].
      eapply (inv_walk _ _ _ _ Hinv), heappop_elem; [done | by left]. }
    rewrite Hg.
    destruct (pop_finalise_inv _ _ _ _ _ _ Hinv Hp Hv Hg) as [Hinv1 Hle].
    destruct (relax_inv v d nbrs _ Hinv1) as (st' & -> & Hinv'); simpl.
    + by rewrite lookup_insert_eq.
    + done.
    + intros u c' Hin. by exists nbrs.
    + by apply IH.
Qed.

(** The search from a node of a graph with non-negative edge data returns
    the shortest distance to every node that a walk can reach. *)
Lemma single_source_correct :
  ∃ dst, single_source_dijkstra_path_length G s = Returns dst ∧
         dijkstra_post G s dst.
Proof.
  pose proof (single_source_fuel G s) as Hfuel.
  pose proof (dijkstra_loop_inv (S (pending_work G ∅)) _ init_inv) as Hinv.
  unfold single_source_dijkstra_path_length in *.
  destruct (dijkstra_loop _ G (init_state s)) as [dst| |]; [eauto | done..].
Qed.

End search.
End DijkstraFacts.

(** ** The search on a graph with a negative edge *)

Module NegativeFacts.
Import Task2 OrderedDictFacts GraphFacts LoopFacts WalkFacts.

Lemma relax_raises dv nbrs st e :
  relax dv nbrs st = Raises e → e = ValueError.
Proof.
  revert st. induction nbrs as [|[u cost] nbrs IH]; intros st; simpl; [done|].
  repeat case_match; eauto; congruence.
Qed.

Section negative.
Variable G : Graph.
Hypothesis Hwf : graph_wf G.

Lemma relax_nodes v dv nbrs st st' :
  (∀ u c, (u, c) ∈ nbrs → edge G v u c) →
  fringe_nodes G st → relax dv nbrs st = Returns st' → fringe_nodes G st'.
Proof.
  revert st. induction nbrs as [|[u cost] nbrs IH]; intros st Hed Hfn; simpl.
  - by intros [= <-].
  - assert (∀ x, fringe_nodes G (push x u st)) as Hpush.
    { intros x d c v' [?|?]%elem_of_cons; [simplify_eq | by eapply Hfn].
      eapply edge_node_r; [done|]. apply Hed. left. }
    assert (∀ u' c', (u', c') ∈ nbrs → edge G v u' c') as Hed'
      by (intros; apply Hed; by right).
    repeat case_match; eauto; done.
Qed.

(** The loop raises nothing but the [ValueError] of a contradictory path. *)
Lemma dijkstra_loop_raises fuel st e :
  fringe_nodes G st → dijkstra_loop fuel G st = Raises e → e = ValueError.
Proof.
  revert st. induction fuel as [|fuel IH]; intros st Hfn; simpl.
  all: destruct (heappop (fringe st)) as [[[[d c] v] rest]|] eqn:Hp;
    [|done]; [try done].
  pose proof (λ e, heappop_elem _ _ _ e Hp) as Hel.
  destruct (dist st !! v) eqn:Hv.
  - apply IH. intros d' c' v' Hin. eapply Hfn, Hel. by right.
  - assert (is_Some (OD.get v G)) as [nbrs Hg].
    { eapply Hfn, Hel. by left. }
    rewrite Hg. destruct (relax d nbrs _) as [st'|e'|] eqn:Hr; simpl.
    + apply IH. eapply relax_nodes; [| |done].
      * intros u c' Hin. by exists nbrs.
      * intros d' c' v' Hin. eapply Hfn, Hel. by right.
    + intros [= <-]. by eapply relax_raises.
    + done.
Qed.

(** Relaxing an edge into a node finalised at a larger distance raises. *)
Lemma relax_contradiction dv nbrs st x w dx :
  (x, w) ∈ nbrs → dist st !! x = Some dx → dv + w < dx →
  relax dv nbrs st = Raises ValueError.
Proof.
  revert st. induction nbrs as [|[u cost] nbrs IH]; intros st Hin Hx Hlt.
  - by apply elem_of_nil in Hin.
  - simpl. apply elem_of_cons in Hin as [Heq|Hin].
    + simplify_eq. rewrite Hx. by rewrite (proj2 (Z.ltb_lt _ _)).
    + repeat case_match; eauto.
Qed.

(** Relaxing a negative edge out of a node finalised at [dv ≤ 0] leaves a
    tuple below 0 for its other end. *)
Lemma relax_negative_entry dv nbrs st st' y w :
  NoDup (OD.keys nbrs) → dv + w < 0 →
  dist st !! y = None →
  (seen st !! y = None ∧ (y, w) ∈ nbrs) ∨
    (∃ d c, (d, c, y) ∈ fringe st ∧ d < 0) →
  relax dv nbrs st = Returns st' →
  ∃ d c, (d, c, y) ∈ fringe st' ∧ d < 0.
Proof.
  intros Hnd Hlt. revert st.
  induction nbrs as [|[u cost] nbrs IH]; intros st Hy Hcase Hr.
  - simpl in Hr. simplify_eq.
    destruct Hcase as [[_ []%elem_of_nil]|?]; done.
  - rewrite keys_cons in Hnd. apply NoDup_cons in Hnd as [Hu Hnd].
    destruct Hcase as [[Hs Hin]|(d & c & Hin & Hneg)].
    + apply elem_of_cons in Hin as [Heq|Hin].
      * simplify_eq. simpl in Hr. rewrite Hy, Hs in Hr.
        apply relax_frame in Hr as (_ & _ & Hsub).
        exists (dv + cost), (counter st). split; [|done].
        apply Hsub. left.
      * assert (u ≠ y) as Hne.
        { intros ->. apply Hu. unfold OD.keys.
          apply list_elem_of_fmap. by exists (y, w). }
        simpl in Hr.
        assert (∀ x, dist (push x u st) !! y = None ∧
                     seen (push x u st) !! y = None) as Hpush.
        { intros x. simpl. by rewrite lookup_insert_ne. }
        repeat case_match; try done;
          (eapply IH; [done | | | done]);
          first [apply Hpush | done | left; split; [apply Hpush | done]
                | left; by split].
    + apply relax_frame in Hr as (_ & _ & Hsub). eauto.
Qed.

Section edge.
Variables (x y w : Z).
Hypothesis Hneg : w < 0.
Hypothesis Hxy : edge G x y w.

Lemma dijkstra_loop_doomed fuel st :
  x ≠ y → doomed x y st → fringe_nodes G st →
  dijkstra_loop fuel G st = OutOfFuel ∨
  dijkstra_loop fuel G st = Raises ValueError.
Proof.
  intros Hne. revert st.
  induction fuel as [|fuel IH]; intros st [Hx Hy (dy & cy & Hin & Hdy)] Hfn.
  all: simpl; destruct (heappop (fringe st)) as [[[[d c] v] rest]|] eqn:Hp.
  all: try (apply heappop_None in Hp; rewrite Hp in Hin;
            by apply elem_of_nil in Hin).
  { by left. }
  pose proof (λ e, heappop_elem _ _ _ e Hp) as Hel.
  pose proof (heappop_min _ _ _ _ Hp Hin) as Hmin. simpl in Hmin.
  assert (fringe_nodes G (mkD (dist st) (seen st) rest (counter st))) as Hfn'.
  { intros d' c' v' Hin'. eapply Hfn, Hel. by right. }
  destruct (dist st !! v) as [dv|] eqn:Hv.
  - apply IH; [|done]. split; simpl; [done..|].
    exists dy, cy. split; [|done].
    apply Hel in Hin as [?|?]; [simplify_eq | done].
  - assert (is_Some (OD.get v G)) as [nbrs Hg].
    { eapply Hfn, Hel. by left. }
    rewrite Hg.
    destruct (decide (v = y)) as [->|Hvy].
    + (* the other end of the negative edge is finalised below 0 *)
      erewrite relax_contradiction; [by right | | |].
      * apply edge_sym in Hxy; [|done].
        destruct Hxy as (nbrs' & ? & ?). by simplify_eq.
      * simpl. by rewrite lookup_insert_ne.
      * lia.
    + destruct (relax d nbrs _) as [st'|e'|] eqn:Hr; simpl.
      * pose proof Hr as (Hd & _ & Hsub)%relax_frame. simpl in *.
        apply IH.
        -- split; rewrite ?Hd.
           ++ rewrite lookup_insert_ne; [done | congruence].
           ++ by rewrite lookup_insert_ne.
           ++ exists dy, cy. split; [|done]. apply Hsub.
              apply Hel in Hin as [?|?]; [simplify_eq | done].
        -- eapply relax_nodes; [| |done]; [|done].
           intros u c' Hin'. by exists nbrs.
      * right. f_equal. by eapply relax_raises.
      * by left.
Qed.

(** The search started at an end of a negative edge raises [ValueError]. *)
Lemma single_source_negative :
  single_source_dijkstra_path_length G x = Raises ValueError.
Proof.
  pose proof (single_source_fuel G x) as Hfuel.
  cut (single_source_dijkstra_path_length G x = OutOfFuel ∨
       single_source_dijkstra_path_length G x = Raises ValueError).
  { by intros [?|?]. }
  clear Hfuel. unfold single_source_dijkstra_path_length. simpl.
  rewrite lookup_empty.
  destruct Hxy as (nbrs & Hg & Hin). rewrite Hg.
  destruct (decide (x = y)) as [<-|Hne].
  - erewrite relax_contradiction; [by right | done | |].
    + simpl. apply lookup_insert_eq.
    + lia.
  - destruct (relax 0 nbrs _) as [st'|e'|] eqn:Hr; simpl.
    + pose proof Hr as (Hd & _ & Hsub)%relax_frame. simpl in *.
      apply dijkstra_loop_doomed; [done | |].
      * split; rewrite ?Hd.
        -- apply lookup_insert_eq.
        -- by rewrite lookup_insert_ne.
        -- eapply (relax_negative_entry 0 nbrs _ _ y w); [| | |left|done];
             simpl.
           ++ by eapply wf_nbrs.
           ++ lia.
           ++ by rewrite lookup_insert_ne.
           ++ split; [|done]. by rewrite lookup_singleton_ne.
      * eapply relax_nodes; [| |done].
        -- intros u c' Hin'. by exists nbrs.
        -- intros d c v []%elem_of_nil.
    + right. f_equal. by eapply relax_raises.
    + by left.
Qed.

End edge.
End negative.
End NegativeFacts.

(** ** All pairs, and the frame that is filled from them *)

Module MatrixFacts.
Import Task2 OrderedDictFacts GraphFacts LoopFacts WalkFacts.
Import DijkstraFacts NegativeFacts.

Lemma has_negative_edge_true G :
  graph_wf G → has_negative_edge G = true → ∃ x y w, edge G x y w ∧ w < 0.
Proof.
  intros HG. unfold has_negative_edge.
  intros ([x nbrs] & Hin & ([y w] & Hin' & Hlt)%existsb_exists)%existsb_exists.
  simpl in *. apply Z.ltb_lt in Hlt. exists x, y, w. split; [|done].
  exists nbrs. split; [|by apply list_elem_of_In].
  apply elem_get; [apply HG | by apply list_elem_of_In].
Qed.

Lemma has_negative_edge_false G a b c :
  has_negative_edge G = false → edge G a b c → 0 ≤ c.
Proof.
  unfold has_negative_edge. intros Hf (nbrs & Hg%get_Some_elem & Hin).
  destruct (decide (0 ≤ c)) as [|Hlt]; [done|]. exfalso.
  apply not_true_iff_false in Hf. apply Hf.
  apply existsb_exists. exists (a, nbrs). split; [by apply list_elem_of_In|].
  apply existsb_exists. exists (b, c). split; [by apply list_elem_of_In|].
  simpl. apply Z.ltb_lt. lia.
Qed.

Lemma all_pairs_from_correct G nodes acc :
  graph_wf G → (∀ a b c, edge G a b c → 0 ≤ c) →
  (∀ n, n ∈ nodes → is_Some (OD.get n G)) →
  ∃ ap, all_pairs_from G nodes acc = Returns ap ∧
        (∀ n, n ∈ nodes → ∃ dst, ap !! n = Some dst ∧ dijkstra_post G n dst) ∧
        (∀ n, n ∉ nodes → ap !! n = acc !! n).
Proof.
  intros HG Hnn. revert acc.
  induction nodes as [|n0 nodes IH]; intros acc Hnodes; simpl.
  - exists acc. split_and!; [done | | done]. intros n []%elem_of_nil.
  - destruct (single_source_correct G n0 Hnn) as (d0 & -> & Hpost).
    { intros a b c. by apply edge_node_r. }
    { apply Hnodes. left. }
    simpl. destruct (IH (<[n0 := d0]> acc)) as (ap & -> & Hin & Hout).
    { intros n Hn. apply Hnodes. by right. }
    exists ap. split_and!; [done | |].
    + intros n Hn. destruct (decide (n ∈ nodes)) as [|Hnot]; [eauto|].
      apply elem_of_cons in Hn as [->|?]; [|done].
      exists d0. by rewrite Hout, lookup_insert_eq.
    + intros n [Hne Hn]%not_elem_of_cons.
      by rewrite Hout, lookup_insert_ne.
Qed.

Lemma all_pairs_from_negative G nodes acc x y w :
  graph_wf G → (∀ n, n ∈ nodes → is_Some (OD.get n G)) →
  edge G x y w → w < 0 → x ∈ nodes →
  all_pairs_from G nodes acc = Raises ValueError.
Proof.
  intros HG Hnodes He Hw. revert acc.
  induction nodes as [|n0 nodes IH]; intros acc Hx; simpl.
  - by apply elem_of_nil in Hx.
  - destruct (single_source_dijkstra_path_length G n0) as [d0|e|] eqn:Hs.
    + simpl. apply IH.
      * intros n Hn. apply Hnodes. by right.
      * apply elem_of_cons in Hx as [->|?]; [|done].
        by rewrite (single_source_negative G HG n0 y w) in Hs.
    + simpl. f_equal. eapply (dijkstra_loop_raises G HG); [|exact Hs].
      intros d c v [=]%list_elem_of_singleton. subst. apply Hnodes. left.
    + by apply single_source_fuel in Hs.
Qed.

(** *** Filling the frame *)

Lemma elem_of_blank_cells rows cols (k : Z * Z) (x : cell) :
  (k, x) ∈ (r ← rows; c ← cols; [((r, c), @None Z)])
  ↔ x = None ∧ k.1 ∈ rows ∧ k.2 ∈ cols.
Proof.
  rewrite list_elem_of_bind. split.
  - intros (r & (c & Hin%list_elem_of_singleton & Hc)%list_elem_of_bind & Hr).
    by simplify_eq.
  - intros (-> & Hr & Hc). exists k.1. split; [|done].
    apply list_elem_of_bind. exists k.2. split; [|done].
    apply list_elem_of_singleton. by destruct k.
Qed.

Lemma new_frame_lookup rows cols i j :
  cells (new_frame rows cols) !! (i, j)
  = if decide (i ∈ rows ∧ j ∈ cols) then Some None else None.
Proof.
  unfold new_frame. simpl.
  destruct (list_to_map _ !! (i, j)) as [x|] eqn:Hl.
  - apply elem_of_list_to_map_2, elem_of_blank_cells in Hl as (-> & ? & ?).
    by rewrite decide_True.
  - apply not_elem_of_list_to_map in Hl.
    rewrite decide_False; [done|]. intros [Hi Hj]. apply Hl.
    apply list_elem_of_fmap. exists ((i, j), None). split; [done|].
    by apply elem_of_blank_cells.
Qed.

Lemma populate_row_lookup (f : Z → cell) r cols m i j :
  cells (fold_left (λ m c, loc_set r c (f c) m) cols m) !! (i, j)
  = if decide (i = r ∧ j ∈ cols) then Some (f j) else cells m !! (i, j).
Proof.
  revert m. induction cols as [|c cols IH]; intros m; cbn [fold_left].
  - rewrite decide_False; [done|]. intros [_ []%elem_of_nil].
  - rewrite IH. cbn [loc_set cells]. destruct (decide (i = r ∧ j ∈ cols)) as [[-> Hj]|Hn].
    + rewrite decide_True; [done|]. split; [done | by right].
    + destruct (decide ((r, c) = (i, j))) as [[= -> ->]|Hne].
      * rewrite lookup_insert_eq, decide_True; [done|]. split; [done | left].
      * rewrite lookup_insert_ne by done.
        rewrite decide_False; [done|].
        intros [-> [->|?]%elem_of_cons]; [done | by apply Hn].
Qed.

Lemma populate_row_labels (f : Z → cell) r cols m :
  index (fold_left (λ m c, loc_set r c (f c) m) cols m) = index m ∧
  columns (fold_left (λ m c, loc_set r c (f c) m) cols m) = columns m.
Proof. revert m. induction cols as [|c cols IH]; intros m; simpl; [done|]. by rewrite !(proj1 (IH _)), !(proj2 (IH _)). Qed.

Lemma populate_lookup_gen ap rows cols m i j :
  cells (fold_left
           (λ m r, fold_left (λ m c, loc_set r c (cell_value ap r c) m) cols m)
           rows m) !! (i, j)
  = if decide (i ∈ rows ∧ j ∈ cols) then Some (cell_value ap i j)
    else cells m !! (i, j).
Proof.
  revert m. induction rows as [|r rows IH]; intros m; cbn [fold_left].
  - rewrite decide_False; [done|]. intros [[]%elem_of_nil _].
  - rewrite IH, populate_row_lookup.
    destruct (decide (i ∈ rows ∧ j ∈ cols)) as [[Hi Hj]|Hn].
    + rewrite decide_True; [done|]. split; [by right | done].
    + destruct (decide (i = r ∧ j ∈ cols)) as [[-> Hj]|Hn'].
      * rewrite decide_True; [done|]. split; [left | done].
      * rewrite decide_False; [done|].
        intros [[->|?]%elem_of_cons ?]; [by apply Hn' | by apply Hn].
Qed.

Lemma populate_labels_gen ap rows cols m :
  index (fold_left
           (λ m r, fold_left (λ m c, loc_set r c (cell_value ap r c) m) cols m)
           rows m) = index m ∧
  columns (fold_left
           (λ m r, fold_left (λ m c, loc_set r c (cell_value ap r c) m) cols m)
           rows m) = columns m.
Proof.
  revert m. induction rows as [|r rows IH]; intros m; simpl; [done|].
  rewrite !(proj1 (IH _)), !(proj2 (IH _)).
  apply (populate_row_labels (cell_value ap r)).
Qed.

(** Every cell addressed by two labels holds the value computed for it. *)
Lemma populate_loc ap L i j :
  loc (populate ap L (new_frame L L)) i j
  = if decide (i ∈ L ∧ j ∈ L) then Some (cell_value ap i j) else None.
Proof.
  unfold loc, populate. rewrite populate_lookup_gen, new_frame_lookup.
  by case_decide.
Qed.

Lemma populate_labels ap L :
  index (populate ap L (new_frame L L)) = L ∧
  columns (populate ap L (new_frame L L)) = L.
Proof. apply populate_labels_gen. Qed.

(** *** The labels *)

Lemma elem_of_unique x l : x ∈ unique l ↔ x ∈ l.
Proof.
  induction l as [|y l IH]; simpl; [done|].
  rewrite !elem_of_cons, list_elem_of_filter, IH.
  destruct (decide (x = y)); naive_solver.
Qed.

Lemma NoDup_unique l : NoDup (unique l).
Proof.
  induction l as [|y l IH]; simpl; [apply NoDup_nil_2|].
  apply NoDup_cons. split; [|by apply NoDup_filter].
  rewrite list_elem_of_filter. naive_solver.
Qed.

Lemma elem_of_sorted x l : x ∈ sorted l ↔ x ∈ l.
Proof. unfold sorted. by rewrite merge_sort_Permutation. Qed.

Lemma toll_locations_elem x df :
  x ∈ sorted (unique (id_start <$> df)) ↔ ∃ r, r ∈ df ∧ id_start r = x.
Proof.
  rewrite elem_of_sorted, elem_of_unique, list_elem_of_fmap. naive_solver.
Qed.

Lemma add_edge_nodes x u v w G :
  is_Some (OD.get x (add_edge u v w G))
  ↔ x = u ∨ x = v ∨ is_Some (OD.get x G).
Proof.
  rewrite get_add_edge. repeat case_decide; subst; naive_solver.
Qed.

Lemma build_graph_nodes df r :
  r ∈ df →
  is_Some (OD.get (id_start r) (build_graph df)) ∧
  is_Some (OD.get (id_end r) (build_graph df)).
Proof.
  unfold build_graph. generalize ([] : Graph).
  induction df as [|r0 df IH]; intros G Hin; simpl.
  - by apply elem_of_nil in Hin.
  - apply elem_of_cons in Hin as [->|Hin]; [|by apply IH].
    assert (∀ x G0, is_Some (OD.get x G0) →
      is_Some (OD.get x (fold_left (λ G row, add_edge (id_start row)
        (id_end row) (distance row) G) df G0))) as Hkeep.
    { clear. intros x. induction df as [|r df IH]; intros G0 Hx; simpl; [done|].
      apply IH, add_edge_nodes. auto. }
    split; apply Hkeep, add_edge_nodes; auto.
Qed.

End MatrixFacts.

(** ** The distance matrix *)

Module DistanceMatrixFacts.
Import Task2 OrderedDictFacts GraphFacts LoopFacts WalkFacts.
Import DijkstraFacts NegativeFacts MatrixFacts.

(** On a graph without negative edge data the builder returns the frame
    filled from the shortest distances of every node. *)
Lemma calculate_returns df :
  (∀ a b c, edge (build_graph df) a b c → 0 ≤ c) →
  let L := sorted (unique (id_start <$> df)) in
  ∃ ap, calculate_distance_matrix df
        = Returns (populate ap L (new_frame L L)) ∧
        ∀ n, is_Some (OD.get n (build_graph df)) →
             ∃ dst, ap !! n = Some dst ∧ dijkstra_post (build_graph df) n dst.
Proof.
  intros Hnn L. unfold calculate_distance_matrix, all_pairs_dijkstra_path_length.
  destruct (all_pairs_from_correct (build_graph df) (OD.keys (build_graph df))
              ∅ (build_graph_wf df) Hnn) as (ap & -> & Hin & _).
  { intros n. by rewrite get_is_Some_keys. }
  exists ap. split; [done|]. intros n Hn. by apply Hin, get_is_Some_keys.
Qed.

(** With a negative edge datum in the graph the builder raises. *)
Lemma calculate_raises df :
  has_negative_edge (build_graph df) = true →
  calculate_distance_matrix df = Raises ValueError.
Proof.
  intros (x & y & w & He & Hw)%has_negative_edge_true; [|apply build_graph_wf].
  unfold calculate_distance_matrix, all_pairs_dijkstra_path_length.
  erewrite all_pairs_from_negative; [done | apply build_graph_wf | | done..|].
  - intros n. by rewrite get_is_Some_keys.
  - by eapply get_is_Some_keys, edge_node_l.
Qed.

(** The labels of a returned matrix: the sorted distinct [id_start]
    values, on both axes. *)
Lemma matrix_labels df m :
  calculate_distance_matrix df = Returns m →
  index m = sorted (unique (id_start <$> df)) ∧ columns m = index m.
Proof.
  unfold calculate_distance_matrix.
  destruct (all_pairs_dijkstra_path_length _) as [ap| |]; simpl; [|done..].
  intros [= <-].
  by rewrite (proj1 (populate_labels _ _)), (proj2 (populate_labels _ _)).
Qed.

(** The value written off the diagonal, in terms of the graph. *)
Lemma cell_value_spec G ap i j :
  graph_wf G →
  (∀ n, is_Some (OD.get n G) →
        ∃ dst, ap !! n = Some dst ∧ dijkstra_post G n dst) →
  is_Some (OD.get i G) → is_Some (OD.get j G) → i ≠ j →
  match cell_value ap i j with
  | Some d => shortest_dist G i j d
  | None => ¬ connected G i j
  end.
Proof.
  intros HG Hap Hi Hj Hne.
  destruct (Hap i Hi) as (di & Hdi & Hpi1 & Hpi2).
  destruct (Hap j Hj) as (dj & Hdj & Hpj1 & Hpj2).
  unfold cell_value. rewrite decide_False by done.
  rewrite Hdi, Hdj. simpl.
  destruct (di !! j) as [x|] eqn:Hx; [by apply Hpi1|].
  assert (¬ connected G i j) as Hnc.
  { intros [w Hw]. apply Hpi2 in Hw as [? ?]. congruence. }
  destruct (dj !! i) as [x|] eqn:Hx'; [|done].
  exfalso. apply Hnc. apply connected_sym; [done|].
  exists x. by apply Hpj1.
Qed.

Lemma valid_input_nonneg df a b c :
  valid_input df → edge (build_graph df) a b c → 0 ≤ c.
Proof. intros [_ Hdf]. by apply edge_build_graph_nonneg. Qed.

Lemma label_is_node df m i :
  calculate_distance_matrix df = Returns m → i ∈ index m →
  is_Some (OD.get i (build_graph df)).
Proof.
  intros [-> _]%matrix_labels (r & Hr & <-)%toll_locations_elem.
  by apply build_graph_nodes.
Qed.

(** The cells of a returned matrix, for a valid input. *)
Lemma matrix_cells df :
  valid_input df →
  ∃ m, calculate_distance_matrix df = Returns m ∧
    (∀ i, i ∈ index m → loc m i i = Some (Some 0)) ∧
    (∀ i j, i ∈ index m → j ∈ columns m → i ≠ j →
       ∃ c, loc m i j = Some c ∧
            match c with
            | Some d => shortest_dist (build_graph df) i j d
            | None => ¬ connected (build_graph df) i j
            end).
Proof.
  intros Hv.
  destruct (calculate_returns df) as (ap & Hret & Hap).
  { intros a b c. by apply valid_input_nonneg. }
  eexists. split; [exact Hret|].
  pose proof (matrix_labels _ _ Hret) as [Hidx Hcol].
  pose proof (λ i, label_is_node _ _ i Hret) as Hnode.
  rewrite Hcol. rewrite Hidx in *. split.
  - intros i Hi. rewrite populate_loc, decide_True by done.
    unfold cell_value. by rewrite decide_True.
  - intros i j Hi Hj Hne. rewrite populate_loc, decide_True by done.
    eexists. split; [done|].
    apply cell_value_spec; auto using build_graph_wf.
Qed.

End DistanceMatrixFacts.

(** * The claims about [calculate_distance_matrix] *)

Import Task2 OrderedDictFacts GraphFacts LoopFacts WalkFacts.
Import DijkstraFacts NegativeFacts MatrixFacts DistanceMatrixFacts.

(** C1, on the chain 1 -- 2 -- 3: the matrix that is returned is square,
    but its labels are the sorted distinct [id_start] values [1; 2] only;
    location 3, which occurs only as an [id_end], is an endpoint of an edge
    and a node of the graph, yet labels neither a row nor a column. *)
Theorem labels_omit_end_only_location :
  ∃ m, calculate_distance_matrix chain_edges = Returns m ∧
       index m = [1; 2] ∧ columns m = [1; 2] ∧
       3 ∈ endpoints chain_edges ∧
       is_Some (OD.get 3 (build_graph chain_edges)) ∧
       (3 ∉ index m) ∧
       sorted (unique (endpoints chain_edges)) = [1; 2; 3].
Proof.
  eexists. split; [vm_compute; reflexivity|].
  split_and!; try (vm_compute; reflexivity).
  - vm_compute. set_solver.
  - vm_compute. eauto.
  - simpl. set_solver.
Qed.


Lemma has_negative_edge_last_weight df :
  has_negative_edge (build_graph df) = true
  ↔ ∃ u v c, last_weight u v df = Some c ∧ c < 0.
Proof.
  pose proof (build_graph_wf df) as HG. split.
  - intros (x & y & w & He & Hw)%has_negative_edge_true; [|done].
    exists x, y, w. split; [|done].
    by rewrite <- weight_build_graph, <- edge_weight.
  - intros (u & v & c & Hl & Hc).
    rewrite <- weight_build_graph, <- edge_weight in Hl by done.
    destruct (has_negative_edge (build_graph df)) eqn:Hn; [done|].
    pose proof (has_negative_edge_false _ _ _ _ Hn Hl). lia.
Qed.








(** C6, on the rows (1, 2, 4), (1, 2, 9): the graph keeps the distance of
    the last row, 9, for the pair; but 2 occurs only as an [id_end], so the
    matrix has the single label 1 and no cell (1, 2) to hold that 9.  When
    the second row names the pair the other way round, both labels exist
    and the cell holds 9. *)
Theorem duplicate_pair_column_missing :
  weight (build_graph duplicate_edges) 1 2 = Some 9 ∧
  (∃ m, calculate_distance_matrix duplicate_edges = Returns m ∧
        index m = [1] ∧ columns m = [1] ∧
        loc m 1 2 = None ∧ loc m 1 1 = Some (Some 0)) ∧
  (∃ m, calculate_distance_matrix [mkRow 1 2 4; mkRow 2 1 9] = Returns m ∧
        loc m 1 2 = Some (Some 9) ∧ loc m 2 1 = Some (Some 9)).
Proof.
  split_and!; [reflexivity | |].
  - eexists. split; [vm_compute; reflexivity|].
    split_and!; vm_compute; reflexivity.
  - eexists. split; [vm_compute; reflexivity|].
    split_and!; vm_compute; reflexivity.
Qed.

(** C7, on the rows (1, 2, 10), (2, 3, 5): the cells (1, 2), (1, 1) and
    (2, 2) hold 10, 0 and 0, and the search itself finds 15 from 1 to 3;
    but the matrix has no row and no column 3, so the cells (1, 3), (2, 3)
    and (3, 3) do not exist. *)
Theorem chain_example_missing_location :
  (∃ ap d1, all_pairs_dijkstra_path_length (build_graph chain_edges)
            = Returns ap ∧ ap !! 1 = Some d1 ∧ d1 !! 3 = Some 15) ∧
  ∃ m, calculate_distance_matrix chain_edges = Returns m ∧
       loc m 1 2 = Some (Some 10) ∧
       loc m 1 1 = Some (Some 0) ∧ loc m 2 2 = Some (Some 0) ∧
       loc m 1 3 = None ∧ loc m 2 3 = None ∧ loc m 3 3 = None.
Proof.
  split.
  - do 2 eexists. split_and!; vm_compute; reflexivity.
  - eexists. split; [vm_compute; reflexivity|].
    split_and!; vm_compute; reflexivity.
Qed.

(** * The claims about [python_task_1] and [unroll_distance_matrix] *)

Module Task1Facts.
Import Task1.

Lemma flt_Finite p q : flt (Finite p) (Finite q) = negb (Qle_bool q p).
Proof. done. Qed.

Lemma fle_Finite p q : fle (Finite p) (Finite q) = Qle_bool p q.
Proof.
  unfold fle. simpl. apply eq_true_iff_eq.
  rewrite orb_true_iff, negb_true_iff, <- not_true_iff_false.
  rewrite !Qle_bool_iff, Qeq_bool_iff. split.
  - intros [?|?]; lra.
  - intros H. destruct (Qlt_le_dec p q); [left | right]; lra.
Qed.

Lemma Qle_bool_15_25 q :
  Qle_bool q (15 # 1) = true → Qle_bool q (25 # 1) = true.
Proof. rewrite !Qle_bool_iff. lra. Qed.

Lemma cut_car_Finite q :
  cut car_bins car_labels true (Finite q)
  = if Qle_bool q (15 # 1) then Some "low"
    else if Qle_bool q (25 # 1) then Some "medium" else Some "high".
Proof.
  unfold cut, searchsorted_left, car_bins.
  rewrite !filter_cons, filter_nil. rewrite !flt_Finite.
  destruct (Qle_bool q (15 # 1)) eqn:H15, (Qle_bool q (25 # 1)) eqn:H25;
    try reflexivity.
  apply Qle_bool_15_25 in H15. congruence.
Qed.

(** Each value falls in the bucket that the right-closed bounds give it,
    and a missing value in none. *)
Lemma cut_car_buckets x :
  (cut car_bins car_labels true x = Some "low" ↔ is_low x = true) ∧
  (cut car_bins car_labels true x = Some "medium" ↔ is_medium x = true) ∧
  (cut car_bins car_labels true x = Some "high" ↔ is_high x = true).
Proof.
  destruct x as [| |q|]; try (vm_compute; repeat split; congruence).
  rewrite cut_car_Finite. unfold is_low, is_medium, is_high.
  rewrite !fle_Finite, !flt_Finite.
  pose proof (Qle_bool_15_25 q) as Hq.
  destruct (Qle_bool q (15 # 1)), (Qle_bool q (25 # 1)); simpl;
    repeat split; try congruence; intros; try done.
  by specialize (Hq eq_refl).
Qed.

Lemma count_fmap {A B} `{EqDecision B} (f : A → B) (c : B) (P : A → bool)
    (l : list A) :
  (∀ x, f x = c ↔ P x = true) →
  length (filter (λ v, v = c) (f <$> l))
  = length (filter (λ x, P x = true) l).
Proof.
  intros HP. induction l as [|x l IH]; [done|].
  rewrite fmap_cons, !filter_cons.
  destruct (decide (f x = c)) as [Hc|Hc], (decide (P x = true)) as [Hx|Hx];
    simpl; rewrite ?IH; try done; exfalso; by apply HP in Hc || apply HP in Hx.
Qed.

Lemma value_counts_car car :
  let car_type := cut car_bins car_labels true <$> car in
  (λ c, (c, length (filter (λ v, v = Some c) car_type))) <$> car_labels
  = [("low", count_if is_low car); ("medium", count_if is_medium car);
     ("high", count_if is_high car)].
Proof.
  intros car_type. unfold car_labels, car_type, count_if.
  rewrite !fmap_cons, fmap_nil.
  rewrite (count_fmap _ (Some "low") is_low),
          (count_fmap _ (Some "medium") is_medium),
          (count_fmap _ (Some "high") is_high);
    [done | intros x; apply cut_car_buckets..].
Qed.

End Task1Facts.

Import Task1 Task1Facts.

(** C9: [get_type_count] puts a value [x] in 'low' iff [x <= 15], in
    'medium' iff [15 < x <= 25] and in 'high' iff [x > 25]; the dictionary
    it returns gives the three counts under keys in ascending alphabetical
    order. *)
Theorem get_type_count_buckets (car : list fnum) :
  (∀ x, (cut car_bins car_labels true x = Some "low"
         ↔ fle x (Finite (15 # 1)) = true) ∧
        (cut car_bins car_labels true x = Some "medium"
         ↔ flt (Finite (15 # 1)) x && fle x (Finite (25 # 1)) = true) ∧
        (cut car_bins car_labels true x = Some "high"
         ↔ flt (Finite (25 # 1)) x = true)) ∧
  get_type_count car
  = [("high", count_if is_high car); ("low", count_if is_low car);
     ("medium", count_if is_medium car)] ∧
  ascending (get_type_count car).*1 = true.
Proof.
  split; [apply cut_car_buckets|].
  assert (get_type_count car
          = [("high", count_if is_high car); ("low", count_if is_low car);
             ("medium", count_if is_medium car)]) as ->; [|done].
  unfold get_type_count, value_counts. rewrite value_counts_car.
  generalize (count_if is_low car) (count_if is_medium car)
             (count_if is_high car).
  intros l m h. unfold sort_by. simpl.
  repeat (match goal with
          | |- context [(?a <=? ?b)%nat] => destruct (a <=? b)%nat
          end; simpl); reflexivity.
Qed.

Section multiply_facts.
Context {F : Type}.
Variables (fmul : F → F → F) (fgt : F → F → bool) (round_to : nat → F → F).
Variables (lit_0_75 lit_1_25 lit_20 : F).

(** C8: [multiply_matrix] returns a frame object that did not exist before
    the call; every object that existed, the argument among them, is left as
    it was; and the returned frame has the labels of the argument and, in
    place of every cell [x], [round(x * 0.75, 1)] if [x > 20] and
    [round(x * 1.25, 1)] otherwise. *)
Theorem multiply_matrix_frame (h : list (DataFrame (F:=F)))
    (input_matrix : nat) (t : DataFrame) :
  h !! input_matrix = Some t →
  ∃ h' result,
    multiply_matrix fmul fgt round_to lit_0_75 lit_1_25 lit_20 h input_matrix
    = Some (h', result) ∧
    h !! result = None ∧ result ≠ input_matrix ∧
    (∀ r t0, h !! r = Some t0 → h' !! r = Some t0) ∧
    h' !! input_matrix = Some t ∧
    h' !! result
    = Some {| df_index := df_index t; df_columns := df_columns t;
              df_values :=
                map (map (scaled_cell fmul fgt round_to
                                      lit_0_75 lit_1_25 lit_20))
                    (df_values t) |}.
Proof.
  intros Ht. unfold multiply_matrix, copy, applymap, round.
  rewrite Ht. simpl.
  rewrite lookup_app_r by done. rewrite Nat.sub_diag. simpl.
  rewrite lookup_app_r by done. rewrite Nat.sub_diag. simpl.
  do 2 eexists. split; [reflexivity|].
  assert (input_matrix < length h)%nat as Hlt by by eapply lookup_lt_Some.
  split_and!.
  - apply lookup_ge_None. rewrite !length_app. lia.
  - rewrite !length_app. lia.
  - intros r t0 Hr. by do 3 apply lookup_app_l_Some.
  - by do 3 apply lookup_app_l_Some.
  - rewrite lookup_app_r by done. rewrite Nat.sub_diag.
    simpl. f_equal. unfold map_cells. simpl. f_equal.
    rewrite map_map. apply map_ext. intros row.
    rewrite map_map. apply map_ext. intros x.
    unfold scaled_cell. by destruct (fgt x lit_20).
Qed.

End multiply_facts.

Lemma multiply_matrix_frame_witness :
  ∃ h' result,
    multiply_matrix_Q [sample_matrix] 0 = Some (h', result) ∧
    [sample_matrix] !! result = None ∧ result ≠ 0%nat ∧
    (∀ r t0, [sample_matrix] !! r = Some t0 → h' !! r = Some t0) ∧
    h' !! 0%nat = Some sample_matrix ∧
    h' !! result
    = Some {| df_index := [1; 2]; df_columns := [1; 2];
              df_values :=
                map (map (scaled_cell Qmult Qgt_bool Qround_to
                                      (3 # 4) (5 # 4) (20 # 1)))
                    (df_values sample_matrix) |}.
Proof.
  apply (multiply_matrix_frame Qmult Qgt_bool Qround_to (3 # 4) (5 # 4)
           (20 # 1) [sample_matrix] 0 sample_matrix).
  reflexivity.
Defined.

(** The sample frame becomes 12.5, 22.5, 25, 15.8. *)
Example multiply_matrix_sample :
  ∃ h', multiply_matrix_Q [sample_matrix] 0 = Some (h', 3%nat) ∧
        h' !! 3%nat
        = Some {| df_index := [1; 2]; df_columns := [1; 2];
                  df_values := [[25 # 2; 45 # 2]; [25 # 1; 79 # 5]]%Q |}.
Proof. eexists. split; vm_compute; reflexivity. Qed.

(** C10: whatever frame it is given, a call of [unroll_distance_matrix]
    in the module as written raises [NameError]: the body reads the name
    [distance_matrix], which the module never binds, and never reads its
    parameter. *)
Theorem unroll_distance_matrix_raises_NameError (df : Frame) :
  module_globals !! "distance_matrix" = None ∧
  unroll_distance_matrix module_globals df = Raises NameError ∧
  ∀ globals df', unroll_distance_matrix globals df
                 = unroll_distance_matrix globals df'.
Proof. split_and!; [vm_compute; reflexivity | done | done]. Qed.

(** * Further properties of [calculate_distance_matrix] *)

Lemma StronglySorted_le_lt (l : list Z) :
  StronglySorted Z.le l → NoDup l → StronglySorted Z.lt l.
Proof.
  induction 1 as [|x l Hs IH Hx]; intros Hnd; [constructor|].
  apply NoDup_cons in Hnd as [Hin Hnd]. constructor; [auto|].
  apply Forall_forall. intros y Hy.
  assert (x ≤ y) by by eapply Forall_forall in Hx.
  assert (x ≠ y) by (intros ->; done). lia.
Qed.

Lemma toll_locations_sorted df :
  StronglySorted Z.lt (sorted (unique (id_start <$> df))).
Proof.
  apply StronglySorted_le_lt.
  - apply StronglySorted_merge_sort; apply _.
  - unfold sorted. rewrite merge_sort_Permutation. apply NoDup_unique.
Qed.

Lemma calculate_returns_inv df m :
  calculate_distance_matrix df = Returns m →
  ∃ ap, all_pairs_dijkstra_path_length (build_graph df) = Returns ap ∧
        m = populate ap (sorted (unique (id_start <$> df)))
              (new_frame (sorted (unique (id_start <$> df)))
                         (sorted (unique (id_start <$> df)))).
Proof.
  unfold calculate_distance_matrix.
  destruct (all_pairs_dijkstra_path_length _) as [ap| |]; simpl; [|done..].
  intros [= <-]. eauto.
Qed.

(** X1: Whenever a matrix is returned it is square over one list of labels: the
    distinct [id_start] values in strictly ascending order; and it has a
    cell exactly for every pair of labels. *)
Theorem matrix_shape df m :
  calculate_distance_matrix df = Returns m →
  columns m = index m ∧
  index m = sorted (unique (id_start <$> df)) ∧
  StronglySorted Z.lt (index m) ∧
  (∀ x, x ∈ index m ↔ ∃ r, r ∈ df ∧ id_start r = x) ∧
  (∀ i j, is_Some (loc m i j) ↔ i ∈ index m ∧ j ∈ index m).
Proof.
  intros Hret. destruct (matrix_labels _ _ Hret) as [Hidx Hcol].
  destruct (calculate_returns_inv _ _ Hret) as (ap & _ & Hm).
  split_and!; [done | done | | |].
  - rewrite Hidx. apply toll_locations_sorted.
  - intros x. rewrite Hidx. apply toll_locations_elem.
  - intros i j. rewrite Hidx. rewrite Hm at 1. rewrite populate_loc.
    case_decide as Hij; split; done.
Qed.

Lemma matrix_shape_witness :
  ∃ m, calculate_distance_matrix two_components = Returns m ∧
       (columns m = index m ∧
        index m = sorted (unique (id_start <$> two_components)) ∧
        StronglySorted Z.lt (index m) ∧
        (∀ x, x ∈ index m ↔ ∃ r, r ∈ two_components ∧ id_start r = x) ∧
        (∀ i j, is_Some (loc m i j) ↔ i ∈ index m ∧ j ∈ index m)).
Proof.
  eexists. split; [vm_compute; reflexivity|].
  apply (matrix_shape two_components). vm_compute. reflexivity.
Defined.

Lemma loc_Some_labels df m i j c :
  calculate_distance_matrix df = Returns m → loc m i j = Some c →
  i ∈ index m ∧ j ∈ columns m.
Proof.
  intros Hret Hloc. destruct (matrix_labels _ _ Hret) as [Hidx Hcol].
  destruct (calculate_returns_inv _ _ Hret) as (ap & _ & Hm).
  rewrite Hcol, Hidx. rewrite Hm, populate_loc in Hloc.
  by case_decide.
Qed.

Lemma known_cell_shortest df m i j d :
  valid_input df → calculate_distance_matrix df = Returns m →
  i ≠ j → loc m i j = Some (Some d) →
  shortest_dist (build_graph df) i j d.
Proof.
  intros Hv Hret Hne Hloc.
  destruct (matrix_cells df Hv) as (m' & Hret' & _ & Hoff).
  assert (m' = m) as -> by congruence.
  destruct (loc_Some_labels _ _ _ _ _ Hret Hloc) as [Hi Hj].
  destruct (Hoff i j Hi Hj Hne) as (c & Hc & Hspec).
  rewrite Hloc in Hc. by simplify_eq.
Qed.





Lemma fold_add_edge_nodes df G x :
  is_Some (OD.get x (fold_left (λ G row, add_edge (id_start row) (id_end row)
                                           (distance row) G) df G))
  ↔ is_Some (OD.get x G) ∨ x ∈ endpoints df.
Proof.
  revert G. induction df as [|r df IH]; intros G; simpl.
  - split; [auto | intros [?|[]%elem_of_nil]; done].
  - rewrite IH, add_edge_nodes.
    change (endpoints (r :: df))
      with (id_start r :: id_end r :: endpoints df).
    rewrite !elem_of_cons. tauto.
Qed.

(** X4: The graph built from the rows: its nodes are the locations that some
    row names as start or as end, each once; the datum of an edge is the
    distance of the last row that joins its two ends, in either
    orientation, and is the same seen from both ends. *)
Theorem build_graph_nodes_edges df :
  NoDup (OD.keys (build_graph df)) ∧
  (∀ x, x ∈ OD.keys (build_graph df) ↔ x ∈ endpoints df) ∧
  (∀ u v, weight (build_graph df) u v = last_weight u v df) ∧
  (∀ u v, weight (build_graph df) u v = weight (build_graph df) v u).
Proof.
  pose proof (build_graph_wf df) as [Hn _ Hs]. split_and!; [done | | | done].
  - intros x. rewrite <- get_is_Some_keys. unfold build_graph.
    rewrite fold_add_edge_nodes. simpl.
    split; [intros [[? [=]]|?]; done | auto].
  - intros u v. apply weight_build_graph.
Qed.

(** ** Rows given in both directions *)

Import Task2More.

Lemma joins_flip r u v : joins (flip_row r) u v ↔ joins r u v.
Proof. unfold joins, flip_row. simpl. tauto. Qed.

Lemma last_weight_fold_acc u v df acc :
  fold_left (λ acc r, if decide (joins r u v) then Some (distance r) else acc)
            df acc
  = match last_weight u v df with Some w => Some w | None => acc end.
Proof.
  unfold last_weight. revert acc.
  induction df as [|r df IH]; intros acc; simpl; [done|].
  rewrite IH, (IH (if decide _ then _ else _)).
  destruct (fold_left _ df None); [done|]. by case_decide.
Qed.

Lemma last_weight_both_ways u v df :
  last_weight u v (both_ways df) = last_weight u v df.
Proof.
  unfold both_ways. unfold last_weight at 1. rewrite fold_left_app.
  fold (last_weight u v df).
  assert (∀ acc,
    fold_left (λ acc r, if decide (joins r u v) then Some (distance r)
                        else acc) (flip_row <$> df) acc
    = fold_left (λ acc r, if decide (joins r u v) then Some (distance r)
                          else acc) df acc) as ->.
  { induction df as [|r df IH]; intros acc; simpl; [done|].
    rewrite IH. f_equal.
    destruct (decide (joins (flip_row r) u v)) as [H|H],
             (decide (joins r u v)) as [H'|H']; try done;
      apply joins_flip in H || apply joins_flip in H'; done. }
  rewrite last_weight_fold_acc. by destruct (last_weight u v df).
Qed.

Lemma edge_both_ways df u v c :
  edge (build_graph (both_ways df)) u v c ↔ edge (build_graph df) u v c.
Proof.
  rewrite !edge_weight by apply build_graph_wf.
  by rewrite !weight_build_graph, last_weight_both_ways.
Qed.

Lemma walk_both_ways df u v w :
  walk (build_graph (both_ways df)) u v w ↔ walk (build_graph df) u v w.
Proof.
  split; induction 1; econstructor; eauto; by apply edge_both_ways.
Qed.

Lemma endpoints_both_ways df x :
  (∃ r, r ∈ both_ways df ∧ id_start r = x) ↔ x ∈ endpoints df.
Proof.
  unfold both_ways, endpoints. rewrite list_elem_of_bind.
  setoid_rewrite elem_of_app. setoid_rewrite list_elem_of_fmap.
  split.
  - intros (r & [Hr|(r' & -> & Hr)] & <-).
    + exists r. split; [left | done].
    + exists r'. split; [right; left | done].
  - intros (r & [->|[->|[]%elem_of_nil]%elem_of_cons]%elem_of_cons & Hr).
    + exists r. eauto.
    + exists (flip_row r). split; [right; eauto | done].
Qed.



(** On the chain 1 -- 2 -- 3 given in both directions the matrix has the
    labels 1, 2, 3 and the cell (1, 3) holds 15. *)
Example both_ways_chain :
  ∃ m, calculate_distance_matrix (both_ways chain_edges) = Returns m ∧
       index m = [1; 2; 3] ∧ loc m 1 3 = Some (Some 15) ∧
       loc m 2 3 = Some (Some 5) ∧ loc m 3 3 = Some (Some 0).
Proof.
  eexists. split; [vm_compute; reflexivity|].
  split_and!; vm_compute; reflexivity.
Qed.

(** X6: The labels are all the endpoints exactly when every location that ends
    a row also starts one. *)
Theorem labels_cover_endpoints_iff df m :
  calculate_distance_matrix df = Returns m →
  ((∀ x, x ∈ endpoints df → x ∈ index m)
   ↔ ∀ r, r ∈ df → ∃ r', r' ∈ df ∧ id_start r' = id_end r).
Proof.
  intros [-> _]%matrix_labels. setoid_rewrite toll_locations_elem.
  unfold endpoints. setoid_rewrite list_elem_of_bind. split.
  - intros H r Hr. apply H. exists r. split; [right; left | done].
  - intros H x (r & [->|[->|[]%elem_of_nil]%elem_of_cons]%elem_of_cons & Hr);
      eauto.
Qed.

Lemma labels_cover_endpoints_iff_witness :
  ∃ m, calculate_distance_matrix chain_edges = Returns m ∧
    ((∀ x, x ∈ endpoints chain_edges → x ∈ index m)
     ↔ ∀ r, r ∈ chain_edges → ∃ r', r' ∈ chain_edges ∧ id_start r' = id_end r).
Proof.
  eexists. split; [vm_compute; reflexivity|].
  apply (labels_cover_endpoints_iff chain_edges). vm_compute. reflexivity.
Defined.

(** * [unroll_distance_matrix] when the global name is bound *)

Lemma unroll_row_complete dm i cols acc :
  (∀ j, j ∈ cols → is_Some (loc dm i j)) →
  unroll_row dm i cols acc
  = Returns (acc ++ (j ← cols; if decide (i ≠ j)
                               then [mkURow i j (default None (loc dm i j))]
                               else [])).
Proof.
  revert acc. induction cols as [|j cols IH]; intros acc Hc; simpl.
  - by rewrite app_nil_r.
  - assert (∀ j', j' ∈ cols → is_Some (loc dm i j')) as Hc'
      by (intros; apply Hc; by right).
    destruct (decide (i ≠ j)) as [Hne|Heq].
    + destruct (Hc j) as [c Hloc]; [left|]. rewrite Hloc. simpl.
      rewrite IH by done. by rewrite <- app_assoc.
    + by rewrite IH.
Qed.

Lemma unroll_rows_complete dm rows acc :
  (∀ i j, i ∈ rows → j ∈ columns dm → is_Some (loc dm i j)) →
  unroll_rows dm rows acc
  = Returns (acc ++ (i ← rows; j ← columns dm;
                     if decide (i ≠ j)
                     then [mkURow i j (default None (loc dm i j))] else [])).
Proof.
  revert acc. induction rows as [|i rows IH]; intros acc Hc; simpl.
  - by rewrite app_nil_r.
  - rewrite unroll_row_complete by (intros; apply Hc; [left | done]).
    simpl. rewrite IH by (intros; apply Hc; [by right | done]).
    by rewrite <- app_assoc.
Qed.

Lemma unroll_bound_global_core globals dm df :
  globals !! "distance_matrix" = Some (VFrame dm) → complete dm →
  unroll_distance_matrix globals df = Returns (off_diagonal dm).
Proof.
  intros Hg Hc. unfold unroll_distance_matrix, load_global. rewrite Hg.
  simpl. by rewrite unroll_rows_complete.
Qed.

Lemma elem_of_off_diagonal dm i j d :
  complete dm →
  (mkURow i j d ∈ off_diagonal dm
   ↔ i ∈ index dm ∧ j ∈ columns dm ∧ i ≠ j ∧ loc dm i j = Some d).
Proof.
  intros Hc. unfold off_diagonal. rewrite list_elem_of_bind.
  setoid_rewrite list_elem_of_bind. split.
  - intros (i' & (j' & Hin & Hj) & Hi). case_decide; [|by apply elem_of_nil in Hin].
    apply list_elem_of_singleton in Hin. simplify_eq.
    split_and!; try done. destruct (Hc i' j' Hi Hj) as [c Hloc].
    by rewrite Hloc.
  - intros (Hi & Hj & Hne & Hloc). exists i. split; [|done].
    exists j. split; [|done]. rewrite decide_True by done.
    rewrite Hloc. simpl. apply list_elem_of_singleton. done.
Qed.

(** X7: When the globals bind [distance_matrix] to a frame, the call returns,
    whatever frame is passed as argument, the cells off the diagonal of the
    bound frame, row by row: one record for every pair of a row label and a
    different column label, with the cell of that pair. *)
Theorem unroll_bound_global globals dm df :
  globals !! "distance_matrix" = Some (VFrame dm) → complete dm →
  unroll_distance_matrix globals df = Returns (off_diagonal dm) ∧
  ∀ i j d, mkURow i j d ∈ off_diagonal dm
           ↔ i ∈ index dm ∧ j ∈ columns dm ∧ i ≠ j ∧ loc dm i j = Some d.
Proof.
  intros Hg Hc. split; [by apply unroll_bound_global_core|].
  intros i j d. by apply elem_of_off_diagonal.
Qed.

Lemma unroll_bound_global_witness :
  unroll_distance_matrix
    (<["distance_matrix" := VFrame (new_frame [1; 2] [1; 2])]> module_globals)
    (new_frame [] [])
  = Returns (off_diagonal (new_frame [1; 2] [1; 2])) ∧
  ∀ i j d, mkURow i j d ∈ off_diagonal (new_frame [1; 2] [1; 2])
           ↔ i ∈ index (new_frame [1; 2] [1; 2]) ∧
             j ∈ columns (new_frame [1; 2] [1; 2]) ∧ i ≠ j ∧
             loc (new_frame [1; 2] [1; 2]) i j = Some d.
Proof.
  apply unroll_bound_global.
  - vm_compute. reflexivity.
  - intros i j Hi Hj. unfold loc. rewrite new_frame_lookup.
    rewrite decide_True by done. eauto.
Defined.

Lemma off_diagonal_row_length {A} (f : Z → A) i (L : list Z) :
  NoDup L →
  length (j ← L; if decide (i ≠ j) then [f j] else [])
  = if decide (i ∈ L) then (length L - 1)%nat else length L.
Proof.
  induction 1 as [|x L Hx Hnd IH]; [done|].
  rewrite bind_cons, length_app, IH. clear IH.
  destruct (decide (i = x)) as [->|Hne].
  - rewrite decide_False by (intros ?; done).
    rewrite (decide_False (P := x ∈ L)) by done.
    rewrite decide_True by left. simpl. lia.
  - rewrite (decide_True (P := i ≠ x)) by done. simpl.
    destruct (decide (i ∈ L)) as [Hin|Hin].
    + rewrite decide_True by by right.
      destruct L; [by apply elem_of_nil in Hin | simpl; lia].
    + rewrite decide_False; [done|]. rewrite elem_of_cons. tauto.
Qed.

Lemma off_diagonal_length dm :
  NoDup (columns dm) → index dm = columns dm →
  length (off_diagonal dm)
  = (length (index dm) * (length (index dm) - 1))%nat.
Proof.
  intros Hnd Heq. unfold off_diagonal. rewrite Heq.
  assert (∀ rows, (∀ i, i ∈ rows → i ∈ columns dm) →
    length (i ← rows; j ← columns dm;
            if decide (i ≠ j)
            then [mkURow i j (default None (loc dm i j))] else [])
    = (length rows * (length (columns dm) - 1))%nat) as H.
  { induction rows as [|i rows IH]; intros Hin; [done|].
    rewrite bind_cons, length_app, IH by (intros; apply Hin; by right).
    rewrite (off_diagonal_row_length (λ j, mkURow i j _)) by done.
    rewrite decide_True by (apply Hin; left). simpl. lia. }
  by apply H.
Qed.

Lemma cells_symmetric df m i j :
  valid_input df → calculate_distance_matrix df = Returns m →
  i ∈ index m → j ∈ index m → i ≠ j → loc m i j = loc m j i.
Proof.
  intros Hv Hret Hi Hj Hne.
  destruct (matrix_cells df Hv) as (m' & Hret' & _ & Hoff).
  assert (m' = m) as -> by congruence.
  destruct (matrix_labels _ _ Hret) as [_ Hcol].
  pose proof (build_graph_wf df) as HG.
  destruct (Hoff i j) as (c & -> & Hc); rewrite ?Hcol; auto.
  destruct (Hoff j i) as (c' & -> & Hc'); rewrite ?Hcol; auto.
  f_equal. destruct c as [d|], c' as [d'|]; try done.
  - f_equal. eapply shortest_dist_unique; [done|].
    by apply shortest_dist_sym.
  - exfalso. apply Hc'. apply connected_sym; [done|]. exists d. apply Hc.
  - exfalso. apply Hc. apply connected_sym; [done|]. exists d'. apply Hc'.
Qed.



(** * [calculate_toll_rate] *)

Module TollRateFacts.
Import Task1 TollRate.

Section facts.
Context {F : Type}.
Variable fmul : F → F → F.
Implicit Types (d : list (string * list F)) (df : Table (F:=F)).

Lemma dict_get_col_set name k col d :
  dict_get name (col_set k col d)
  = if decide (name = k) then Some col else dict_get name d.
Proof.
  induction d as [|[k0 c0] d IH]; simpl.
  - by case_decide.
  - destruct (decide (k = k0)) as [->|Hne]; simpl; rewrite ?IH;
      repeat case_decide; congruence.
Qed.

Lemma names_col_set k col d :
  (col_set k col d).*1
  = if decide (k ∈ d.*1) then d.*1 else d.*1 ++ [k].
Proof.
  induction d as [|[k0 c0] d IH]; [done|].
  cbn [col_set]. destruct (decide (k = k0)) as [->|Hne].
  - rewrite !fmap_cons. simpl. rewrite decide_True; [done | left].
  - rewrite !fmap_cons, IH. simpl. destruct (decide (k ∈ d.*1)).
    + rewrite decide_True; [done | by right].
    + rewrite decide_False; [done|]. rewrite elem_of_cons. tauto.
Qed.

Lemma dict_get_filter_ne name k d :
  dict_get name (filter (λ kc, kc.1 ≠ k) d)
  = if decide (name = k) then None else dict_get name d.
Proof.
  induction d as [|[k0 c0] d IH]; simpl.
  - by case_decide.
  - rewrite filter_cons. simpl.
    destruct (decide (k0 ≠ k)) as [Hne|Heq%dec_stable]; simpl; rewrite IH;
      repeat case_decide; congruence.
Qed.

Lemma names_filter_ne k d :
  (filter (λ kc, kc.1 ≠ k) d).*1 = filter (λ v, v ≠ k) d.*1.
Proof.
  induction d as [|[k0 c0] d IH]; [done|].
  rewrite fmap_cons, !filter_cons. cbn [fst].
  case_decide; [rewrite fmap_cons|]; by rewrite IH.
Qed.

Lemma dict_get_None_names {V} name (d : list (string * V)) :
  dict_get name d = None ↔ name ∉ d.*1.
Proof.
  induction d as [|[k0 c0] d IH]; simpl.
  - split; [intros _; apply not_elem_of_nil | done].
  - rewrite not_elem_of_cons. case_decide; subst.
    + split; [done | intros [? _]; done].
    + rewrite IH. tauto.
Qed.

Lemma rate_loop_runs rates df dist :
  dict_get "distance" (t_columns df) = Some dist →
  "distance" ∉ rates.*1 →
  rate_loop fmul rates df = (with_rates fmul dist rates df, Returns ()).
Proof.
  revert df. induction rates as [|[v c] rates IH]; intros df Hd Hn; [done|].
  apply not_elem_of_cons in Hn as [Hv Hn].
  cbn [rate_loop]. unfold getitem. rewrite Hd. unfold with_rates. simpl.
  apply IH; [|done]. simpl. rewrite dict_get_col_set.
  by rewrite decide_False.
Qed.

Lemma with_rates_index dist rates df :
  t_index (with_rates fmul dist rates df) = t_index df.
Proof.
  revert df. induction rates as [|[v c] rates IH]; intros df; [done|].
  unfold with_rates in *. simpl. by rewrite IH.
Qed.

Lemma with_rates_get dist rates df name :
  NoDup rates.*1 →
  dict_get name (t_columns (with_rates fmul dist rates df))
  = match dict_get name rates with
    | Some c => Some (scale fmul dist c)
    | None => dict_get name (t_columns df)
    end.
Proof.
  revert df. induction rates as [|[v c] rates IH]; intros df Hnd; [done|].
  apply NoDup_cons in Hnd as [Hv Hnd].
  unfold with_rates in *. cbn [fold_left dict_get]. rewrite IH by done.
  simpl. rewrite dict_get_col_set.
  destruct (decide (name = v)) as [->|Hne]; [|done].
  by rewrite (proj2 (dict_get_None_names v rates) Hv).
Qed.

Lemma filter_ext_elem {A} (P Q : A → Prop) `{∀ x, Decision (P x)}
    `{∀ x, Decision (Q x)} (l : list A) :
  (∀ x, x ∈ l → (P x ↔ Q x)) → filter P l = filter Q l.
Proof.
  induction l as [|x l IH]; intros Hl; [done|].
  rewrite !filter_cons, IH by (intros; apply Hl; by right).
  destruct (decide (P x)) as [HP|HP], (decide (Q x)) as [HQ|HQ]; try done;
    exfalso; apply (Hl x) in HP || apply (Hl x) in HQ; done || left.
Qed.

Lemma with_rates_names dist rates df :
  NoDup rates.*1 →
  column_names (with_rates fmul dist rates df)
  = column_names df ++ filter (λ v, v ∉ column_names df) rates.*1.
Proof.
  unfold column_names.
  revert df. induction rates as [|[v c] rates IH]; intros df Hnd.
  - simpl. by rewrite app_nil_r.
  - rewrite fmap_cons in Hnd. apply NoDup_cons in Hnd as [Hv Hnd].
    cbn [fst] in Hv.
    unfold with_rates in *. cbn [fold_left]. rewrite IH by done.
    cbn [setitem t_columns fst snd].
    rewrite names_col_set, fmap_cons, filter_cons. cbn [fst].
    destruct (decide (v ∈ (t_columns df).*1)) as [Hin|Hin].
    + by rewrite decide_False by (intros ?; done).
    + rewrite decide_True by done. rewrite <- app_assoc. simpl.
      do 2 f_equal. apply filter_ext_elem. intros x Hx.
      rewrite elem_of_app, list_elem_of_singleton.
      split; [tauto|]. intros Hn [?|Heq]; [done | by subst].
Qed.

End facts.
End TollRateFacts.

Section toll_rate.
Import Task1 TollRate TollRateFacts.
Context {F : Type}.
Variable fmul : F → F → F.
Variables lit_0_8 lit_1_2 lit_1_5 lit_2_2 lit_3_6 : F.

Let rates := rate_coefficients lit_0_8 lit_1_2 lit_1_5 lit_2_2 lit_3_6.
Let toll := calculate_toll_rate fmul lit_0_8 lit_1_2 lit_1_5 lit_2_2 lit_3_6.

Lemma rates_names : rates.*1 = ["moto"; "car"; "rv"; "bus"; "truck"].
Proof. done. Qed.

Lemma rates_NoDup : NoDup rates.*1.
Proof. rewrite rates_names. apply (bool_decide_unpack _). by vm_compute. Qed.

Lemma toll_runs df dist :
  dict_get "distance" (t_columns df) = Some dist →
  toll df
  = (with_rates fmul dist rates df,
     Returns {| t_index := t_index df;
                t_columns := filter (λ kc, kc.1 ≠ "distance")
                               (t_columns (with_rates fmul dist rates df)) |}).
Proof.
  intros Hd. unfold toll, calculate_toll_rate. fold rates.
  rewrite (rate_loop_runs fmul rates df dist Hd).
  - unfold drop_column.
    rewrite with_rates_get, Hd by apply rates_NoDup.
    replace (dict_get "distance" rates) with (@None F) by done.
    by rewrite with_rates_index.
  - rewrite rates_names. apply (bool_decide_unpack _). by vm_compute.
Qed.

(** X9: [calculate_toll_rate] changes the frame it is given.  Without a
    ['distance'] column it raises [KeyError] and leaves the frame as it
    was.  Otherwise the caller's frame has, after the call, each of the
    five rate columns set to distance times the rate, its other columns,
    ['distance'] among them, as before; and the frame that is returned is a
    copy of that without ['distance']. *)
Theorem calculate_toll_rate_effect (df : Table (F:=F)) :
  match dict_get "distance" (t_columns df) with
  | None => toll df = (df, Raises KeyError)
  | Some dist =>
      ∃ df' out,
        toll df = (df', Returns out) ∧
        t_index df' = t_index df ∧ t_index out = t_index df ∧
        (∀ name, dict_get name (t_columns df')
                 = match dict_get name rates with
                   | Some c => Some (scale fmul dist c)
                   | None => dict_get name (t_columns df)
                   end) ∧
        (∀ name, dict_get name (t_columns out)
                 = if decide (name = "distance") then None
                   else dict_get name (t_columns df'))
  end.
Proof.
  destruct (dict_get "distance" (t_columns df)) as [dist|] eqn:Hd.
  - do 2 eexists. split; [by apply toll_runs|].
    split_and!; cbn [t_index t_columns].
    + apply with_rates_index.
    + done.
    + intros name. apply with_rates_get, rates_NoDup.
    + intros name. apply dict_get_filter_ne.
  - unfold toll, calculate_toll_rate. simpl. unfold getitem. by rewrite Hd.
Qed.

(** X10: The order of the columns: the caller's frame keeps its columns in
    place and gains, at the end and in the order moto, car, rv, bus, truck,
    those rate columns it did not have; the returned frame has the same
    columns in the same order, without ['distance']. *)
Theorem calculate_toll_rate_columns (df : Table (F:=F)) dist :
  dict_get "distance" (t_columns df) = Some dist →
  ∃ df' out,
    toll df = (df', Returns out) ∧
    column_names df'
    = column_names df
      ++ filter (λ v, v ∉ column_names df)
                ["moto"; "car"; "rv"; "bus"; "truck"] ∧
    column_names out = filter (λ v, v ≠ "distance") (column_names df').
Proof.
  intros Hd. do 2 eexists. split; [by apply toll_runs|]. split.
  - rewrite with_rates_names by apply rates_NoDup. by rewrite rates_names.
  - apply names_filter_ne.
Qed.

End toll_rate.

Lemma calculate_toll_rate_columns_witness :
  ∃ df' out,
    TollRate.calculate_toll_rate_Q TollRate.sample_tolls = (df', Returns out) ∧
    TollRate.column_names df'
    = TollRate.column_names TollRate.sample_tolls
      ++ filter (λ v, v ∉ TollRate.column_names TollRate.sample_tolls)
                ["moto"; "car"; "rv"; "bus"; "truck"] ∧
    TollRate.column_names out
    = filter (λ v, v ≠ "distance") (TollRate.column_names df').
Proof.
  apply (calculate_toll_rate_columns Qmult (4 # 5) (6 # 5) (3 # 2) (11 # 5)
           (18 # 5) TollRate.sample_tolls [10 # 1; 20 # 1]%Q).
  reflexivity.
Defined.

(** The sample frame: the caller's copy ends with the columns id_start,
    distance, car, moto, rv, bus, truck, and the returned one lacks
    distance; the car column, 0 before, is 12 and 24 in both. *)
Example calculate_toll_rate_sample :
  ∃ df' out,
    TollRate.calculate_toll_rate_Q TollRate.sample_tolls = (df', Returns out) ∧
    TollRate.column_names df'
    = ["id_start"; "distance"; "car"; "moto"; "rv"; "bus"; "truck"] ∧
    TollRate.column_names out
    = ["id_start"; "car"; "moto"; "rv"; "bus"; "truck"] ∧
    fmap (M:=list) Qred <$> Task1.dict_get "car" (TollRate.t_columns out)
    = Some [12 # 1; 24 # 1]%Q.
Proof. do 2 eexists. split_and!; vm_compute; reflexivity. Qed.

(** * [get_type_count], [generate_car_matrix] and [get_bus_indexes] *)

Module Task1MoreFacts.
Import Task1 Task1Facts.

Lemma get_type_count_value car :
  get_type_count car
  = [("high", count_if is_high car); ("low", count_if is_low car);
     ("medium", count_if is_medium car)].
Proof.
  unfold get_type_count, value_counts. rewrite value_counts_car.
  generalize (count_if is_low car) (count_if is_medium car)
             (count_if is_high car).
  intros l m h. unfold sort_by. simpl.
  repeat (match goal with
          | |- context [(?a <=? ?b)%nat] => destruct (a <=? b)%nat
          end; simpl); reflexivity.
Qed.

(** A value that is not missing lies in exactly one bucket, a missing one
    in none. *)
Lemma buckets_partition x :
  ((if is_high x then 1 else 0) + (if is_low x then 1 else 0)
   + (if is_medium x then 1 else 0)
   = if isna x then 0 else 1)%nat.
Proof.
  destruct x as [| |q|]; try reflexivity.
  unfold is_low, is_medium, is_high. rewrite !fle_Finite, !flt_Finite.
  pose proof (Qle_bool_15_25 q) as Hq.
  destruct (Qle_bool q (15 # 1)), (Qle_bool q (25 # 1)); try reflexivity.
  by specialize (Hq eq_refl).
Qed.

End Task1MoreFacts.

Import Task1MoreFacts.

(** X11: The three counts that [get_type_count] returns add up to the number
    of values of the column that are not missing: every such value is
    counted once. *)
Theorem get_type_count_total (car : list fnum) :
  sum_list (get_type_count car).*2
  = length (filter (λ x, isna x = false) car).
Proof.
  rewrite get_type_count_value. simpl. unfold count_if.
  induction car as [|x car IH]; [done|].
  rewrite !filter_cons.
  pose proof (buckets_partition x) as Hx.
  destruct (is_high x), (is_low x), (is_medium x), (isna x);
    simpl in *; try done; lia.
Qed.

Section task1_names.
Import Task1 TollRate Task1More.

(** X12: In the module as written, every call of [generate_car_matrix] and of
    [get_bus_indexes] raises [NameError]: both read [file_path] first, and
    the module binds no such name.  Neither the argument, nor the files
    present, nor the arithmetic matters. *)
Theorem file_path_unbound_NameError {F Csv : Type} (zero : F)
    (read_csv : gval → run Csv) (pivot_table : Csv → run (Matrix F))
    (fmean : list F → F) (fmul : F → F → F) (fgt : F → F → bool) (lit_2 : F)
    (read_table : gval → run (Table (F:=F))) (df : Csv) :
  module_globals !! "file_path" = None ∧
  generate_car_matrix zero read_csv pivot_table module_globals df
  = Raises NameError ∧
  get_bus_indexes fmean fmul fgt lit_2 read_table module_globals
  = Raises NameError.
Proof. split_and!; [vm_compute; reflexivity | done | done]. Qed.

Section with_file.
Context {F Csv : Type}.
Variable zero : F.
Variable read_csv : gval → run Csv.
Variable pivot_table : Csv → run (Matrix F).

Lemma zero_diagonal_rows (rows : list Z) (p : Matrix F) :
  let m := fold_left
    (λ m index,
       if decide (index ∈ m_columns m)
       then {| m_index := m_index m; m_columns := m_columns m;
               m_cells := <[(index, index) := zero]> (m_cells m) |}
       else m) rows p in
  m_index m = m_index p ∧ m_columns m = m_columns p ∧
  ∀ i j, m_cells m !! (i, j)
         = if decide (i = j ∧ i ∈ rows ∧ i ∈ m_columns p) then Some zero
           else m_cells p !! (i, j).
Proof.
  revert p. induction rows as [|r rows IH]; intros p; cbn [fold_left].
  - split_and!; [done..|]. intros i j.
    rewrite decide_False; [done|]. intros (_ & []%elem_of_nil & _).
  - destruct (decide (r ∈ m_columns p)) as [Hr|Hr].
    + destruct (IH {| m_index := m_index p; m_columns := m_columns p;
                      m_cells := <[(r, r) := zero]> (m_cells p) |})
        as (Hi & Hc & Hcells).
      simpl in *. split_and!; [done..|]. intros i j. rewrite Hcells.
      destruct (decide (i = j ∧ i ∈ rows ∧ i ∈ m_columns p))
        as [(-> & Hin & Hcol)|Hn].
      * rewrite decide_True; [done|]. split_and!; [done | by right | done].
      * destruct (decide ((r, r) = (i, j))) as [[= <- <-]|Hne].
        -- rewrite lookup_insert_eq, decide_True; [done|].
           split_and!; [done | left | done].
        -- rewrite lookup_insert_ne by done.
           rewrite decide_False; [done|].
           intros (-> & [->|?]%elem_of_cons & ?); [done|]. by apply Hn.
    + destruct (IH p) as (Hi & Hc & Hcells).
      split_and!; [done..|]. intros i j. rewrite Hcells.
      destruct (decide (i = j ∧ i ∈ rows ∧ i ∈ m_columns p))
        as [(-> & Hin & Hcol)|Hn].
      * rewrite decide_True; [done|]. split_and!; [done | by right | done].
      * rewrite decide_False; [done|].
        intros (-> & [->|?]%elem_of_cons & ?); [done|]. by apply Hn.
Qed.

(** X13: Where [file_path] is bound and the file reads and pivots, the call
    returns the pivot of the file, not of its argument, with the same
    labels and with [0] in every cell whose row label and column label are
    the same; every other cell is the pivot's. *)
Theorem generate_car_matrix_diagonal globals v csv p (df : Csv) :
  globals !! "file_path" = Some v →
  read_csv v = Returns csv → pivot_table csv = Returns p →
  ∃ m, generate_car_matrix zero read_csv pivot_table globals df = Returns m ∧
       m_index m = m_index p ∧ m_columns m = m_columns p ∧
       ∀ i j, m_cells m !! (i, j)
              = if decide (i = j ∧ i ∈ m_index p ∧ i ∈ m_columns p)
                then Some zero else m_cells p !! (i, j).
Proof.
  intros Hg Hread Hpivot. unfold generate_car_matrix, load_name.
  rewrite Hg. simpl. rewrite Hread. simpl. rewrite Hpivot. simpl.
  eexists. split; [done|]. apply zero_diagonal_rows.
Qed.

End with_file.

Lemma generate_car_matrix_diagonal_witness :
  ∃ m, generate_car_matrix 0 (λ _, Returns tt) (λ _, Returns sample_pivot)
         sample_globals tt = Returns m ∧
       m_index m = m_index sample_pivot ∧
       m_columns m = m_columns sample_pivot ∧
       ∀ i j, m_cells m !! (i, j)
              = if decide (i = j ∧ i ∈ m_index sample_pivot
                           ∧ i ∈ m_columns sample_pivot)
                then Some 0 else m_cells sample_pivot !! (i, j).
Proof.
  apply (generate_car_matrix_diagonal 0 (λ _, Returns tt)
           (λ _, Returns sample_pivot) sample_globals
           (GStr "dataset-1.csv") tt sample_pivot tt); reflexivity.
Defined.

Section with_buses.
Context {F : Type}.
Variable fmean : list F → F.
Variable fmul : F → F → F.
Variable fgt : F → F → bool.
Variable lit_2 : F.
Variable read_csv : gval → run (Table (F:=F)).

(** X14: Where [file_path] is bound and the file reads, [get_bus_indexes]
    raises [KeyError] when the frame has no ['bus'] column; otherwise it
    returns, in ascending order, the labels of the rows whose bus value is
    greater than twice the mean of the column, one entry per such row. *)
Theorem get_bus_indexes_result globals v (df : Table (F:=F)) :
  globals !! "file_path" = Some v → read_csv v = Returns df →
  match dict_get "bus" (t_columns df) with
  | None =>
      get_bus_indexes fmean fmul fgt lit_2 read_csv globals = Raises KeyError
  | Some bus =>
      ∃ l, get_bus_indexes fmean fmul fgt lit_2 read_csv globals = Returns l ∧
           StronglySorted Z.le l ∧
           l ≡ₚ labels_above fgt (fmul lit_2 (fmean bus)) (t_index df) bus ∧
           ∀ i, i ∈ l ↔ ∃ x, (i, x) ∈ zip (t_index df) bus ∧
                             fgt x (fmul lit_2 (fmean bus)) = true
  end.
Proof.
  intros Hg Hread. unfold get_bus_indexes, load_name. rewrite Hg. simpl.
  rewrite Hread. simpl. unfold getitem.
  destruct (dict_get "bus" (t_columns df)) as [bus|]; [|done]. simpl.
  eexists. split; [done|]. split_and!.
  - apply StronglySorted_merge_sort; apply _.
  - apply merge_sort_Permutation.
  - intros i. unfold Task2.sorted. rewrite merge_sort_Permutation.
    unfold labels_above. rewrite list_elem_of_fmap. split.
    + intros ([i' x] & -> & [Hx Hin]%list_elem_of_filter). eauto.
    + intros (x & Hin & Hx). exists (i, x). split; [done|].
      by apply list_elem_of_filter.
Qed.

End with_buses.

Lemma get_bus_indexes_result_witness :
  ∃ l, get_bus_indexes Qmean Qmult Qgt_bool (2 # 1)
         (λ _, Returns sample_buses) sample_globals = Returns l ∧
       StronglySorted Z.le l ∧
       l ≡ₚ labels_above Qgt_bool (Qmult (2 # 1)
              (Qmean [1 # 1; 1 # 1; 9 # 1; 1 # 1]%Q))
              (t_index sample_buses) [1 # 1; 1 # 1; 9 # 1; 1 # 1]%Q ∧
       ∀ i, i ∈ l ↔ ∃ x, (i, x) ∈ zip (t_index sample_buses)
                                      [1 # 1; 1 # 1; 9 # 1; 1 # 1]%Q ∧
                         Qgt_bool x (Qmult (2 # 1)
                           (Qmean [1 # 1; 1 # 1; 9 # 1; 1 # 1]%Q)) = true.
Proof.
  apply (get_bus_indexes_result Qmean Qmult Qgt_bool (2 # 1)
           (λ _, Returns sample_buses) sample_globals
           (GStr "dataset-1.csv") sample_buses); reflexivity.
Defined.

(** With bus values 1, 1, 9, 1 the mean is 3 and only row 2 exceeds 6. *)
Example get_bus_indexes_sample :
  get_bus_indexes Qmean Qmult Qgt_bool (2 # 1)
    (λ _, Returns sample_buses) sample_globals = Returns [2].
Proof. vm_compute. reflexivity. Qed.

End task1_names.
